(** * A regular-expression compiler: parser, Thompson construction, matcher

    Shallow embedding of [src/regex.ts].  The program parses a pattern
    into an AST ([parse], with its inner functions [p] and [simplify]),
    builds a graph of automaton nodes ([makeNfa], inner [makeEdge]) and
    runs a subset simulation over it ([match], inner [addNodeToSet]).

    Modelling choices, all local to this file:
    - a JavaScript string is a [string], one [ascii] per character;
      [charAt] is [String.get] and [for (let c of str)] walks the same
      characters (strings on which the two disagree, those with
      surrogate pairs, are outside the model);
    - the recursive functions of the source whose recursion is not
      structural ([p], [simplify], [addNodeToSet]) take a [fuel] argument
      and return an outcome that records exhaustion; each comes with a
      theorem giving an amount of fuel that always suffices;
    - automaton nodes are objects with identity: they live in an arena
      ([Heap]), a node is its index, [new Nfa.Node()] appends an entry. *)

From Stdlib Require Import String Ascii List Arith Bool Lia PeanoNat.
From Stdlib Require Import ZArith.
Import ListNotations.

#[local] Set Warnings "-register-all".

Local Open Scope string_scope.
Local Open Scope nat_scope.
Local Open Scope list_scope.

(** ** The AST ([module Ast]) *)

Module Ast.

Inductive Node : Type :=
| Atom (v : string)      (* either one character or zero characters (epsilon) *)
| Seq (v : list Node)
| Alt (v : list Node)
| Star (v : Node).

(** Induction principle that reaches the children held in lists. *)
Section NodeInd.
Variable P : Node -> Prop.
Hypothesis HAtom : forall v, P (Atom v).
Hypothesis HSeq : forall v, Forall P v -> P (Seq v).
Hypothesis HAlt : forall v, Forall P v -> P (Alt v).
Hypothesis HStar : forall v, P v -> P (Star v).

Fixpoint Node_nested_ind (n : Node) : P n :=
  match n with
  | Atom v => HAtom v
  | Seq v =>
      HSeq v ((fix go (l : list Node) : Forall P l :=
                 match l with
                 | [] => Forall_nil P
                 | x :: l' => Forall_cons x (Node_nested_ind x) (go l')
                 end) v)
  | Alt v =>
      HAlt v ((fix go (l : list Node) : Forall P l :=
                 match l with
                 | [] => Forall_nil P
                 | x :: l' => Forall_cons x (Node_nested_ind x) (go l')
                 end) v)
  | Star v => HStar v (Node_nested_ind v)
  end.
End NodeInd.

(** Number of constructors of a tree. *)
Fixpoint size (n : Node) : nat :=
  match n with
  | Atom _ => 1
  | Seq v => S (list_sum (map size v))
  | Alt v => S (list_sum (map size v))
  | Star v => S (size v)
  end.

Definition isStar (n : Node) : bool :=
  match n with Star _ => true | _ => false end.

End Ast.
Import Ast.

(** ** Outcomes of the fuelled functions *)

Inductive ParseError : Type :=
| EmptyParens             (* throw 'empty parens' *)
| StarWithoutThing        (* throw 'star without thing' *)
| TerminationTooEarly     (* throw 'termination too early' *)
| NotEverythingConsumed.  (* throw 'not everything consumed' *)

Inductive outcome (A : Type) : Type :=
| Return (a : A)
| Throw (e : ParseError)
| OutOfFuel.
Arguments Return {A} a.
Arguments Throw {A} e.
Arguments OutOfFuel {A}.

(** [mapM f l]: the loop [for (let c of l) newV.push(f(c))] for a
    function that may run out of fuel. *)
Fixpoint mapM {A B : Type} (f : A -> option B) (l : list A) : option (list B) :=
  match l with
  | [] => Some []
  | x :: l' =>
      match f x with
      | None => None
      | Some y =>
          match mapM f l' with
          | None => None
          | Some ys => Some (y :: ys)
          end
      end
  end.

(** ** [simplify] *)

(** The body of the source's [simplify], one unit of fuel per call.
    The [seq] branch calls [simplify] again on the already simplified
    only child; the [star] branch returns [node.v.v], the child of the
    inner star.  The final [throw 'unexpected ast type'] is unreachable
    for a value of the closed type [Node]. *)
Fixpoint simplify_fuel (fuel : nat) (node : Node) : option Node :=
  match fuel with
  | 0 => None
  | S fuel =>
      match node with
      | Seq v =>
          match mapM (simplify_fuel fuel) v with
          | None => None
          | Some newV =>
              match newV with
              | [c] => simplify_fuel fuel c
              | [] => Some (Atom "")
              | _ => Some (Seq newV)
              end
          end
      | Alt v =>
          match mapM (simplify_fuel fuel) v with
          | None => None
          | Some newV => Some (Alt newV)
          end
      | Star v =>
          match simplify_fuel fuel v with
          | None => None
          | Some s =>
              match s with
              | Star vv => Some vv
              | _ => Some (Star s)
              end
          end
      | Atom _ => Some node
      end
  end.

(** [simplify] itself: the fuel [size node] always suffices
    ([simplify_fuel_enough] below), so the default is never used. *)
Definition simplify (node : Node) : Node :=
  match simplify_fuel (size node) node with
  | Some r => r
  | None => node
  end.

(** The shape the spec promises after simplification: every [Seq] has at
    least two children and no [Star] sits directly under a [Star]. *)
Fixpoint simplified (n : Node) : bool :=
  match n with
  | Atom _ => true
  | Seq v => (2 <=? length v) && forallb simplified v
  | Alt v => forallb simplified v
  | Star v => negb (isStar v) && simplified v
  end.

(** ** [parse] and its scanner [p] *)

(** [s.charAt(i)] under the loop guard [i < s.length]: [None] is the
    guard failing. *)
Definition charAt (s : string) (i : nat) : option ascii := String.get i s.

(** [seq.v[seq.v.length - 1] = node].  On an empty array the index is
    [-1]: JavaScript then stores an own property named "-1" and leaves
    the elements and [length] as they are, so nothing that reads the
    array afterwards ([length], [for ... of], [v[0]]) sees it. *)
Definition set_last (l : list Node) (x : Node) : list Node :=
  match l with
  | [] => []
  | _ :: _ => removelast l ++ [x]
  end.

(** One pass of the [while] loop of [p] from position [i], with the
    locals of the enclosing call of [p]: [node], the elements [seq] of
    the current [Ast.Seq] object, and the elements [alts] of the
    sequences pushed on [alt.v] before it.  The current sequence object
    is the last element of [alt.v] (it is shared, not copied), so
    [alt.v] is [alts ++ [seq]].  A call [p(i + 1)] is the same loop with
    fresh locals.  Each iteration and each call costs one unit of fuel. *)
Fixpoint p_loop (fuel : nat) (s : string) (i : nat) (node : option Node)
  (seq : list Node) (alts : list (list Node)) : outcome (nat * Node) :=
  match fuel with
  | 0 => OutOfFuel
  | S fuel =>
      match charAt s i with
      | None => Throw TerminationTooEarly
      | Some c =>
          if Ascii.eqb c "(" then
            match p_loop fuel s (i + 1) None [] [] with
            | Return (i', node') =>
                p_loop fuel s (i' + 1) (Some node') (seq ++ [node']) alts
            | Throw e => Throw e
            | OutOfFuel => OutOfFuel
            end
          else if Ascii.eqb c ")" then
            if 1 <? length (alts ++ [seq]) then
              Return (i, Alt (map Seq (alts ++ [seq])))
            else if 1 <? length seq then
              Return (i, Seq seq)
            else
              match node with
              | Some n => Return (i, n)
              | None => Throw EmptyParens
              end
          else if Ascii.eqb c "*" then
            match node with
            | Some n =>
                p_loop fuel s (i + 1) (Some (Star n)) (set_last seq (Star n)) alts
            | None => Throw StarWithoutThing
            end
          else if Ascii.eqb c "|" then
            p_loop fuel s (i + 1) node [] (alts ++ [seq])
          else
            p_loop fuel s (i + 1) (Some (Atom (String c "")))
              (seq ++ [Atom (String c "")]) alts
      end
  end.

(** [p(i)]: the loop entered with [node = null], [seq = new Ast.Seq([])]
    and [alt = new Ast.Alt([seq])]. *)
Definition p (fuel : nat) (s : string) (i : nat) : outcome (nat * Node) :=
  p_loop fuel s i None [] [].

Definition parse_fuel (fuel : nat) (s : string) : outcome Node :=
  let s := (s ++ ")")%string in
  match p fuel s 0 with
  | Return (lastPosition, node) =>
      if negb (lastPosition =? String.length s - 1) then
        Throw NotEverythingConsumed
      else
        Return (simplify node)
  | Throw e => Throw e
  | OutOfFuel => OutOfFuel
  end.

(** [parse]: one unit of fuel per character of [s + ')'] and one more
    ([parse_total] shows that this is enough). *)
Definition parse (s : string) : outcome Node :=
  parse_fuel (S (String.length (s ++ ")")%string)) s.

(** ** The automaton ([module Nfa]) and [makeNfa] *)

Module Nfa.

(** A node is its index in the arena. *)
Definition Node : Type := nat.

Record Edge : Type := mkEdge {
  v : string;  (* value *)
  t : Node     (* target *)
}.

(** The arena: entry [n] is the array [ds] of node [n]. *)
Definition Heap : Type := list (list Edge).

(** [n.ds].  Every node of the source is an allocated object; an index
    outside the arena stands for no object and reads as a node without
    edges (the arenas that [makeNfa] builds never hold such an index). *)
Definition ds (h : Heap) (n : Node) : list Edge := nth n h [].

(** [new Nfa.Node()] *)
Definition newNode (h : Heap) : Node * Heap := (length h, h ++ [[]]).

(** [n.ds.push(e)], for a node [n] of the arena. *)
Fixpoint push (n : Node) (e : Edge) (h : Heap) : Heap :=
  match h, n with
  | [], _ => []
  | d :: h', 0 => (d ++ [e]) :: h'
  | d :: h', S n' => d :: push n' e h'
  end.

(** [range(k).map(_ => new Nfa.Node())] *)
Fixpoint newNodes (k : nat) (h : Heap) : list Node * Heap :=
  match k with
  | 0 => ([], h)
  | S k' =>
      let (n, h1) := newNode h in
      let (ns, h2) := newNodes k' h1 in
      (n :: ns, h2)
  end.

End Nfa.

(** The loop of the [seq] branch of [makeEdge] over
    [zip(ast.v, nextNodes)] (it stops at the shorter list, as [zip]
    does); [mk] is the recursive call. *)
Section Walk.
Variable mk : Node -> Nfa.Node -> Nfa.Node -> Nfa.Heap -> Nfa.Heap.

Fixpoint walk (cs : list Node) (nexts : list Nfa.Node) (last : Nfa.Node)
  (h : Nfa.Heap) {struct cs} : Nfa.Heap :=
  match cs, nexts with
  | astChild :: cs', next :: nexts' =>
      walk cs' nexts' next (mk astChild last next h)
  | _, _ => h
  end.

End Walk.

(** [makeEdge].  The [seq] branch allocates the [length - 1] fresh nodes
    first and then walks the children. *)
Fixpoint makeEdge (ast : Node) (start end_ : Nfa.Node) (h : Nfa.Heap) : Nfa.Heap :=
  match ast with
  | Seq v =>
      let (fresh, h1) := Nfa.newNodes (length v - 1) h in
      let nextNodes := fresh ++ [end_] in
      walk makeEdge v nextNodes start h1
  | Alt v =>
      fold_left (fun h n => makeEdge n start end_ h) v h
  | Star v =>
      let (middle, h1) := Nfa.newNode h in
      let h2 := Nfa.push start (Nfa.mkEdge "" middle) h1 in
      let h3 := makeEdge v middle middle h2 in
      Nfa.push middle (Nfa.mkEdge "" end_) h3
  | Atom v =>
      Nfa.push start (Nfa.mkEdge v end_) h
  end.

(** [makeNfa] returns the start node; the arena it built comes with it. *)
Definition makeNfa (ast : Node) : Nfa.Node * Nfa.Heap :=
  let (startNode, h1) := Nfa.newNode [] in
  let (endNode, h2) := Nfa.newNode h1 in
  (startNode, makeEdge ast startNode endNode h2).

(** ** [match] *)

(** A [Set<Nfa.Node>] is the list of its elements in insertion order. *)
Definition has (set : list Nfa.Node) (n : Nfa.Node) : bool :=
  existsb (Nat.eqb n) set.

(** [addNodeToSet]: one unit of fuel per nested call. *)
Fixpoint addNodeToSet (fuel : nat) (h : Nfa.Heap) (set : list Nfa.Node)
  (n : Nfa.Node) : option (list Nfa.Node) :=
  match fuel with
  | 0 => None
  | S fuel =>
      if has set n then Some set
      else
        fold_left
          (fun acc e =>
             match acc with
             | None => None
             | Some set =>
                 if String.eqb (Nfa.v e) "" then addNodeToSet fuel h set (Nfa.t e)
                 else Some set
             end)
          (Nfa.ds h n) (Some (set ++ [n]))
  end.

(** The body of [for (let c of str)]: the set [newNs] built from [ns]. *)
Definition step (fuel : nat) (h : Nfa.Heap) (ns : list Nfa.Node) (c : ascii)
  : option (list Nfa.Node) :=
  fold_left
    (fun acc n =>
       fold_left
         (fun acc e =>
            match acc with
            | None => None
            | Some newNs =>
                if String.eqb (String c "") (Nfa.v e) then
                  addNodeToSet fuel h newNs (Nfa.t e)
                else Some newNs
            end)
         (Nfa.ds h n) acc)
    ns (Some []).

Fixpoint match_loop (fuel : nat) (h : Nfa.Heap) (ns : list Nfa.Node) (str : string)
  : option (list Nfa.Node) :=
  match str with
  | EmptyString => Some ns
  | String c str' =>
      match step fuel h ns c with
      | None => None
      | Some newNs => match_loop fuel h newNs str'
      end
  end.

Definition match_fuel (fuel : nat) (h : Nfa.Heap) (startNode : Nfa.Node)
  (str : string) : option bool :=
  match addNodeToSet fuel h [] startNode with
  | None => None
  | Some ns =>
      match match_loop fuel h ns str with
      | None => None
      | Some ns => Some (existsb (fun n => length (Nfa.ds h n) =? 0) ns)
      end
  end.

(** [match(startNode, str)] on the arena [h]: a nested call of
    [addNodeToSet] adds a node that was not in the set, so one unit of
    fuel per node and one more is enough ([match_fuel_accepts]). *)
Definition match_ (h : Nfa.Heap) (startNode : Nfa.Node) (str : string) : option bool :=
  match_fuel (S (length h)) h startNode str.

(** The pipeline of the test harness: [match(makeNfa(parse(regex)), v)]. *)
Definition run_test (regex str : string) : option bool :=
  match parse regex with
  | Return ast => let (startNode, h) := makeNfa ast in match_ h startNode str
  | _ => None
  end.

(** ** Vocabulary of the statements *)

(** [skip i s]: [s] without its first [i] characters. *)
Fixpoint skip (i : nat) (s : string) : string :=
  match i, s with
  | 0, _ => s
  | S i', String _ s' => skip i' s'
  | S _, EmptyString => EmptyString
  end.

(** Position in [s] of the first ")" that closes a group opened before
    [s], when [d] groups opened inside [s] are still to be closed. *)
Fixpoint close_pos (d : nat) (s : string) : option nat :=
  match s with
  | EmptyString => None
  | String c s' =>
      if Ascii.eqb c "(" then option_map S (close_pos (S d) s')
      else if Ascii.eqb c ")" then
        match d with
        | 0 => Some 0
        | S d' => option_map S (close_pos d' s')
        end
      else option_map S (close_pos d s')
  end.

(** Number of groups left open at the end of [s], from [d] open groups;
    [None] when some ")" has no group to close. *)
Fixpoint open_groups (d : nat) (s : string) : option nat :=
  match s with
  | EmptyString => Some d
  | String c s' =>
      if Ascii.eqb c "(" then open_groups (S d) s'
      else if Ascii.eqb c ")" then
        match d with
        | 0 => None
        | S d' => open_groups d' s'
        end
      else open_groups d s'
  end.

(** A pattern has an unmatched opening parenthesis: every ")" closes a
    group and at least one group is never closed. *)
Definition unmatched_open (s : string) : Prop :=
  exists d, open_groups 0 s = Some (S d).

(** Some "(" of [s] is directly followed by ")" or by the end of [s]:
    a group that holds nothing once the closing delimiter is appended. *)
Fixpoint empty_group (s : string) : bool :=
  match s with
  | EmptyString => false
  | String c s' =>
      (Ascii.eqb c "("
       && match s' with
          | EmptyString => true
          | String c' _ => Ascii.eqb c' ")"
          end)
      || empty_group s'
  end.

(** The first character of [s] is "*". *)
Definition leading_star (s : string) : bool :=
  match s with
  | EmptyString => false
  | String c _ => Ascii.eqb c "*"
  end.

(** Some "*" of [s] directly follows "(" or "|". *)
Fixpoint star_after_opener (s : string) : bool :=
  match s with
  | EmptyString => false
  | String c s' =>
      ((Ascii.eqb c "(" || Ascii.eqb c "|") && leading_star s')
      || star_after_opener s'
  end.

(** Moving a returned position. *)
Definition shift {A : Type} (r : outcome (nat * A)) : outcome (nat * A) :=
  match r with
  | Return (j, a) => Return (S j, a)
  | Throw e => Throw e
  | OutOfFuel => OutOfFuel
  end.

(** Every [Alt] of the tree has a child. *)
Fixpoint alts_nonempty (n : Node) : bool :=
  match n with
  | Atom _ => true
  | Seq v => forallb alts_nonempty v
  | Alt v => (1 <=? length v) && forallb alts_nonempty v
  | Star v => alts_nonempty v
  end.

(** Every [Seq] and every [Alt] of the tree has a child. *)
Fixpoint nonempty (n : Node) : bool :=
  match n with
  | Atom _ => true
  | Seq v => (1 <=? length v) && forallb nonempty v
  | Alt v => (1 <=? length v) && forallb nonempty v
  | Star v => nonempty v
  end.

(** Node [m] has an outgoing edge. *)
Definition live (h : Nfa.Heap) (m : Nfa.Node) : Prop := Nfa.ds h m <> [].

(** From [h] to [h'] nodes and edges are only added, and among the
    nodes of [h] only those of [starts] receive edges. *)
Definition grows (starts : list Nfa.Node) (h h' : Nfa.Heap) : Prop :=
  length h <= length h'
  /\ (forall m, exists extra, Nfa.ds h' m = Nfa.ds h m ++ extra)
  /\ (forall m, m < length h -> ~ In m starts -> Nfa.ds h' m = Nfa.ds h m).

(** A chain of edges, whatever their labels. *)
Inductive path (h : Nfa.Heap) : Nfa.Node -> Nfa.Node -> Prop :=
| path_refl n : path h n n
| path_step n e m : In e (Nfa.ds h n) -> path h (Nfa.t e) m -> path h n m.

(** What a call [makeEdge(ast, start, end)] does to the arena. *)
Definition makeEdge_ok (ast : Node) : Prop :=
  forall h start end_, start < length h -> end_ < length h ->
  grows [start] h (makeEdge ast start end_ h)
  /\ (nonempty ast = true ->
      live (makeEdge ast start end_ h) start
      /\ (forall m, length h <= m < length (makeEdge ast start end_ h) ->
          live (makeEdge ast start end_ h) m)
      /\ path (makeEdge ast start end_ h) start end_).

(** The end node of [makeNfa]: the node of its second allocation, the
    [new Nfa.Node()] passed to the top-level [makeEdge]. *)
Definition endNode : Nfa.Node :=
  fst (Nfa.newNode (snd (Nfa.newNode []))).

(** A chain of epsilon edges. *)
Inductive eps_path (h : Nfa.Heap) : Nfa.Node -> Nfa.Node -> Prop :=
| eps_refl n : eps_path h n n
| eps_step n e m :
    In e (Nfa.ds h n) -> Nfa.v e = "" -> eps_path h (Nfa.t e) m ->
    eps_path h n m.

(** [run h n str m]: a chain of edges from [n] to [m] whose one-character
    labels spell exactly [str], epsilon edges in between. *)
Inductive run (h : Nfa.Heap) : Nfa.Node -> string -> Nfa.Node -> Prop :=
| run_done n : run h n "" n
| run_eps n e str m :
    In e (Nfa.ds h n) -> Nfa.v e = "" -> run h (Nfa.t e) str m ->
    run h n str m
| run_char n e c str m :
    In e (Nfa.ds h n) -> Nfa.v e = String c "" -> run h (Nfa.t e) str m ->
    run h n (String c str) m.

(** The whole of [str] is consumed on a way from [startNode] to a node
    without outgoing edge. *)
Definition accepts (h : Nfa.Heap) (startNode : Nfa.Node) (str : string) : Prop :=
  exists m, run h startNode str m /\ length (Nfa.ds h m) = 0.

(** A set that holds the epsilon successors of its elements. *)
Definition eps_closed (h : Nfa.Heap) (set : list Nfa.Node) : Prop :=
  forall x, In x set -> forall e, In e (Nfa.ds h x) -> Nfa.v e = "" ->
  In (Nfa.t e) set.

(** What [addNodeToSet(set, n)] leaves in the set. *)
Definition added (h : Nfa.Heap) (set : list Nfa.Node) (n : Nfa.Node)
  (set' : list Nfa.Node) : Prop :=
  incl set set'
  /\ In n set'
  /\ (forall x, In x set' -> In x set \/ eps_path h n x)
  /\ (forall x, In x set' -> ~ In x set ->
      forall e, In e (Nfa.ds h x) -> Nfa.v e = "" -> In (Nfa.t e) set').

(** The body of the two loops over edges, in [addNodeToSet] and in
    [match]: the target of [e] is visited when [test e] holds. *)
Definition visit (test : Nfa.Edge -> bool) (fuel : nat) (h : Nfa.Heap)
  (acc : option (list Nfa.Node)) (e : Nfa.Edge) : option (list Nfa.Node) :=
  match acc with
  | None => None
  | Some set => if test e then addNodeToSet fuel h set (Nfa.t e) else Some set
  end.

(** Number of nodes of the arena that are not in [set]. *)
Definition unvisited (h : Nfa.Heap) (set : list Nfa.Node) : nat :=
  length (filter (fun m => negb (has set m)) (seq 0 (length h))).

(** ** Vocabulary of the further properties *)

(** The four characters that [p] does not turn into an atom. *)
Definition special (c : ascii) : bool :=
  Ascii.eqb c "(" || Ascii.eqb c ")" || Ascii.eqb c "*" || Ascii.eqb c "|".

(** The value of an atom that [parse] can return: the empty string or
    one character that is not special. *)
Definition plain_atom (v : string) : bool :=
  match v with
  | EmptyString => true
  | String c EmptyString => negb (special c)
  | String _ (String _ _) => false
  end.

(** Every atom of the tree is as above and every [Alt] has at least two
    children. *)
Fixpoint parsed_shape (n : Node) : bool :=
  match n with
  | Atom v => plain_atom v
  | Seq v => forallb parsed_shape v
  | Alt v => (2 <=? length v) && forallb parsed_shape v
  | Star v => parsed_shape v
  end.

(** A pattern without special character. *)
Fixpoint plain (q : string) : bool :=
  match q with
  | EmptyString => true
  | String c q' => negb (special c) && plain q'
  end.

(** One atom per character. *)
Fixpoint atoms_of (q : string) : list Node :=
  match q with
  | EmptyString => []
  | String c q' => Atom (String c "") :: atoms_of q'
  end.

(** What [p] returns at ")" when no bar was met: the sequence when it
    has more than one element, else the last term. *)
Definition finish (n : Node) (seq : list Node) : Node :=
  if 1 <? length seq then Seq seq else n.

(** Number of nodes that [makeEdge] allocates for a tree. *)
Fixpoint states (n : Node) : nat :=
  match n with
  | Atom _ => 0
  | Seq v => (length v - 1) + list_sum (map states v)
  | Alt v => list_sum (map states v)
  | Star v => S (states v)
  end.

(** [zip]: the pairs [[seq1[i], seq2[i]]] for [i] below both lengths. *)
Fixpoint zip {T U : Type} (seq1 : list T) (seq2 : list U) : list (T * U) :=
  match seq1, seq2 with
  | x :: seq1', y :: seq2' => (x, y) :: zip seq1' seq2'
  | _, _ => []
  end.

(** The loop [for (let [astChild, next] of zip(ast.v, nextNodes))] of
    [makeEdge], as a fold over the pairs with [last] and the arena as
    its state. *)
Definition seq_loop (mk : Node -> Nfa.Node -> Nfa.Node -> Nfa.Heap -> Nfa.Heap)
  (pairs : list (Node * Nfa.Node)) (last : Nfa.Node) (h : Nfa.Heap)
  : Nfa.Node * Nfa.Heap :=
  fold_left (fun st pr => (snd pr, mk (fst pr) (fst st) (snd pr) (snd st)))
    pairs (last, h).

(** ** The language of a tree *)

(** Zero or more words of [L], one after the other. *)
Inductive star (L : string -> Prop) : string -> Prop :=
| star_nil : star L ""
| star_app w1 w2 : L w1 -> star L w2 -> star L (w1 ++ w2).

(** One word of each language of the list, in order. *)
Fixpoint cat_all (Ls : list (string -> Prop)) (w : string) : Prop :=
  match Ls with
  | [] => w = ""
  | L :: Ls' =>
      exists w1 w2, w = (w1 ++ w2)%string /\ L w1 /\ cat_all Ls' w2
  end.

(** A word of some language of the list. *)
Definition any_of (Ls : list (string -> Prop)) (w : string) : Prop :=
  exists L, In L Ls /\ L w.

(** The words a tree stands for: an atom for its value (the empty word
    or one character; a longer value labels an edge that [match] can
    never follow), a sequence for the concatenations of words of its
    children in order, an alternation for the words of its children,
    a star for the repetitions of words of its child. *)
Fixpoint lang (n : Node) (w : string) : Prop :=
  match n with
  | Atom v => w = v /\ String.length v <= 1
  | Seq v => cat_all (map lang v) w
  | Alt v => any_of (map lang v) w
  | Star c => star (lang c) w
  end.

(** No star of the tree is applied to a tree that simplifies to a star. *)
Fixpoint star_safe (n : Node) : bool :=
  match n with
  | Atom _ => true
  | Seq v => forallb star_safe v
  | Alt v => forallb star_safe v
  | Star c => negb (isStar (simplify c)) && star_safe c
  end.

(** An edge of [h'] that [h] does not have. *)
Definition enew (h h' : Nfa.Heap) (n : Nfa.Node) (x : Nfa.Edge) : Prop :=
  In x (Nfa.ds h' n) /\ ~ In x (Nfa.ds h n).

(** An edge that [match] can follow: its label is empty or one character. *)
Definition usable (x : Nfa.Edge) : Prop := String.length (Nfa.v x) <= 1.

(** A node allocated between [h] and [h']. *)
Definition fresh (h h' : Nfa.Heap) (n : Nfa.Node) : Prop :=
  length h <= n < length h'.

(** [lrun E I k n w z]: a chain of [k] edges of [E] from [n] to [z]
    whose labels spell [w] and whose intermediate nodes are in [I]. *)
Inductive lrun (E : Nfa.Node -> Nfa.Edge -> Prop) (I : Nfa.Node -> Prop)
  : nat -> Nfa.Node -> string -> Nfa.Node -> Prop :=
| lrun_one n x :
    E n x -> usable x -> lrun E I 1 n (Nfa.v x) (Nfa.t x)
| lrun_step k n x w z :
    E n x -> usable x -> I (Nfa.t x) -> lrun E I k (Nfa.t x) w z ->
    lrun E I (S k) n (Nfa.v x ++ w) z.

(** The edges that a call [makeEdge(ast, s, e)] adds lead to [e] or to
    nodes it allocates, and the chains of added edges from [s] to [e]
    through allocated nodes spell words of the tree. *)
Definition makeEdge_sound (ast : Node) : Prop :=
  forall h s e, s < length h -> e < length h ->
  (forall n x, enew h (makeEdge ast s e h) n x ->
     Nfa.t x = e \/ fresh h (makeEdge ast s e h) (Nfa.t x))
  /\ (forall k w,
       lrun (enew h (makeEdge ast s e h)) (fun n => length h <= n) k s w e ->
       lang ast w).


(** ** [range] and the self-test [test] *)

(** The loop of [range]: [res.push(i)] while [i < end], one unit of
    fuel per evaluation of the loop test. *)
Fixpoint range_loop (fuel : nat) (i end_ : Z) (res : list Z) : option (list Z) :=
  match fuel with
  | 0 => None
  | S fuel =>
      if (i <? end_)%Z then range_loop fuel (i + 1)%Z end_ (res ++ [i])
      else Some res
  end.

(** [range(end)] for an integer [end]: the loop test is evaluated at
    most [end + 1] times. *)
Definition range (end_ : Z) : option (list Z) :=
  range_loop (S (Z.to_nat end_)) 0%Z end_ [].

(** An element of the array that [test] receives. *)
Record TestCase : Type := mkCase {
  regex : string;
  shouldMatch : list string;
  shouldFail : list string
}.

(** The double-quote character. *)
Definition quote : string := String (Ascii.ascii_of_nat 34) "".

(** The line that [test] logs for a string [v] whose verdict is not the
    expected one. *)
Definition failed_message (v : string) (expected : bool) (regex : string)
  : string :=
  ("Failed: " ++ quote ++ v ++ quote
   ++ (if expected then " should match " else " should NOT match ")
   ++ quote ++ regex ++ quote)%string.

(** One of the two inner loops of [test]: each string whose verdict
    differs from [expected] is logged and clears [success]. *)
Fixpoint check_all (h : Nfa.Heap) (nfa : Nfa.Node) (expected : bool)
  (regex : string) (vs : list string) (success : bool) (log : list string)
  : option (bool * list string) :=
  match vs with
  | [] => Some (success, log)
  | v :: vs' =>
      match match_ h nfa v with
      | None => None
      | Some b =>
          if Bool.eqb b expected then
            check_all h nfa expected regex vs' success log
          else
            check_all h nfa expected regex vs' false
              (log ++ [failed_message v expected regex])
      end
  end.

(** The outer loop of [test] with its variable [success] and the lines
    logged so far; the result pairs the lines logged with what the call
    returns or throws. *)
Fixpoint test_loop (values : list TestCase) (success : bool)
  (log : list string) : list string * outcome bool :=
  match values with
  | [] =>
      (log ++ [if success then "All tests succeeded" else "Some tests failed"],
       Return success)
  | testCase :: values' =>
      match parse (regex testCase) with
      | Return ast =>
          let (nfa, h) := makeNfa ast in
          match check_all h nfa true (regex testCase) (shouldMatch testCase)
                  success log with
          | None => (log, OutOfFuel)
          | Some (success1, log1) =>
              match check_all h nfa false (regex testCase)
                      (shouldFail testCase) success1 log1 with
              | None => (log1, OutOfFuel)
              | Some (success2, log2) => test_loop values' success2 log2
              end
          end
      | Throw e => (log, Throw e)
      | OutOfFuel => (log, OutOfFuel)
      end
  end.

Definition test (values : list TestCase) : list string * outcome bool :=
  test_loop values true [].



(* ================================================================== *)
(** * Theorems *)

(** ** Fuel and equations of [simplify] *)

Section MapM.
Context {A B : Type}.

Lemma mapM_Forall2 (Q : A -> B -> Prop) (f : A -> option B) (l : list A) :
  (forall x, In x l -> exists y, f x = Some y /\ Q x y) ->
  exists l', mapM f l = Some l' /\ Forall2 Q l l'.
Proof.
  induction l as [|x l IH]; intros H; simpl.
  - exists []. split; [reflexivity | constructor].
  - destruct (H x (or_introl eq_refl)) as [y [Hy HQ]].
    destruct IH as [l' [Hl' HF]]; [intros z Hz; apply H; right; exact Hz|].
    rewrite Hy, Hl'. exists (y :: l'). split; [reflexivity | constructor; assumption].
Qed.

Lemma mapM_map (f : A -> option B) (g : A -> B) (l : list A) :
  (forall x, In x l -> f x = Some (g x)) -> mapM f l = Some (map g l).
Proof.
  induction l as [|x l IH]; intros H; simpl; [reflexivity|].
  rewrite (H x (or_introl eq_refl)), IH; [reflexivity|].
  intros z Hz; apply H; right; exact Hz.
Qed.

End MapM.

Lemma size_In (c : Node) (v : list Node) :
  In c v -> size c <= list_sum (map size v).
Proof.
  induction v as [|x v IH]; simpl; intros H; [contradiction|].
  destruct H as [-> | H]; [lia | specialize (IH H); lia].
Qed.

Lemma size_Forall2 (v newV : list Node) :
  Forall2 (fun c r => size r <= size c /\ simplified r = true) v newV ->
  list_sum (map size newV) <= list_sum (map size v)
  /\ forallb simplified newV = true.
Proof.
  induction 1 as [|c r v newV [Hs Hr] _ [IH1 IH2]]; simpl.
  - split; [lia | reflexivity].
  - rewrite Hr, IH2. split; [lia | reflexivity].
Qed.

(** With [size node] units of fuel [simplify_fuel] returns, and what it
    returns is no larger than its argument and has the simplified shape. *)
Lemma simplify_fuel_enough (fuel : nat) :
  forall node, size node <= fuel ->
  exists r, simplify_fuel fuel node = Some r
            /\ size r <= size node /\ simplified r = true.
Proof.
  induction fuel as [|fuel IH]; intros node Hsz.
  - destruct node; simpl in Hsz; lia.
  - destruct node as [a | v | v | c]; simpl in Hsz; simpl simplify_fuel.
    + exists (Atom a). split; [reflexivity | split; [lia | reflexivity]].
    + destruct (mapM_Forall2 (fun c r => size r <= size c /\ simplified r = true)
                  (simplify_fuel fuel) v) as [newV [HnewV HF]].
      { intros c Hc. apply IH. pose proof (size_In c v Hc). lia. }
      rewrite HnewV. destruct (size_Forall2 _ _ HF) as [Hsum Hall].
      destruct newV as [|r1 [|r2 newV]].
      * exists (Atom ""). simpl. repeat split; lia.
      * inversion HF as [|c0 r0 v0 l0 [Hr1 _] HF0]; subst.
        inversion HF0; subst. simpl in *.
        destruct (IH r1) as [r [Hr [Hle Hs]]]; [lia|].
        exists r. split; [exact Hr | split; [lia | exact Hs]].
      * exists (Seq (r1 :: r2 :: newV)).
        split; [reflexivity | split; [simpl in *; lia | exact Hall]].
    + destruct (mapM_Forall2 (fun c r => size r <= size c /\ simplified r = true)
                  (simplify_fuel fuel) v) as [newV [HnewV HF]].
      { intros c Hc. apply IH. pose proof (size_In c v Hc). lia. }
      rewrite HnewV. destruct (size_Forall2 _ _ HF) as [Hsum Hall].
      exists (Alt newV). split; [reflexivity | split; [simpl; lia | exact Hall]].
    + destruct (IH c) as [s [Hs [Hle Hshape]]]; [lia|].
      rewrite Hs. destruct s as [a | v | v | vv].
      * exists (Star (Atom a)). simpl in *. split; [reflexivity | split; [lia | reflexivity]].
      * exists (Star (Seq v)). split; [reflexivity | split; [simpl in *; lia | exact Hshape]].
      * exists (Star (Alt v)). split; [reflexivity | split; [simpl in *; lia | exact Hshape]].
      * exists vv. simpl in *. apply andb_prop in Hshape.
        split; [reflexivity | split; [lia | tauto]].
Qed.

(** Extra fuel changes nothing. *)
Lemma simplify_fuel_indep (fuel1 : nat) :
  forall fuel2 node, size node <= fuel1 -> size node <= fuel2 ->
  simplify_fuel fuel1 node = simplify_fuel fuel2 node.
Proof.
  induction fuel1 as [|fuel1 IH]; intros fuel2 node H1 H2.
  - destruct node; simpl in H1; lia.
  - destruct fuel2 as [|fuel2]; [destruct node; simpl in H2; lia|].
    assert (Hmap : forall v, list_sum (map size v) <= fuel1 ->
                   list_sum (map size v) <= fuel2 ->
                   mapM (simplify_fuel fuel1) v = mapM (simplify_fuel fuel2) v).
    { induction v as [|c v IHv]; simpl; intros Ha Hb; [reflexivity|].
      rewrite (IH fuel2 c) by lia. rewrite IHv by lia. reflexivity. }
    destruct node as [a | v | v | c]; simpl in H1, H2; simpl simplify_fuel.
    + reflexivity.
    + rewrite (Hmap v) by lia.
      destruct (mapM (simplify_fuel fuel2) v) as [newV|] eqn:E; [|reflexivity].
      destruct newV as [|r1 [|r2 newV]]; try reflexivity.
      destruct v as [|c0 [|c1 v]]; simpl in E.
      * discriminate.
      * destruct (simplify_fuel fuel2 c0) as [r|] eqn:E0; [|discriminate].
        injection E as ->. simpl in H1, H2.
        destruct (simplify_fuel_enough fuel2 c0) as [r' [Hr' [Hle _]]]; [lia|].
        rewrite E0 in Hr'. injection Hr' as <-.
        apply IH; lia.
      * destruct (simplify_fuel fuel2 c0); [|discriminate].
        destruct (simplify_fuel fuel2 c1); [|discriminate].
        destruct (mapM (simplify_fuel fuel2) v); discriminate.
    + rewrite (Hmap v) by lia. reflexivity.
    + rewrite (IH fuel2 c) by lia. reflexivity.
Qed.

Lemma simplify_fuel_simplify (fuel : nat) (node : Node) :
  size node <= fuel -> simplify_fuel fuel node = Some (simplify node).
Proof.
  intros H. unfold simplify.
  rewrite (simplify_fuel_indep fuel (size node) node H (le_n _)).
  destruct (simplify_fuel_enough (size node) node (le_n _)) as [r [-> _]].
  reflexivity.
Qed.

Lemma simplify_size (node : Node) : size (simplify node) <= size node.
Proof.
  destruct (simplify_fuel_enough (size node) node (le_n _)) as [r [Hr [Hle _]]].
  rewrite simplify_fuel_simplify in Hr by lia. injection Hr as ->. exact Hle.
Qed.

Lemma simplify_simplified (node : Node) : simplified (simplify node) = true.
Proof.
  destruct (simplify_fuel_enough (size node) node (le_n _)) as [r [Hr [_ Hs]]].
  rewrite simplify_fuel_simplify in Hr by lia. injection Hr as ->. exact Hs.
Qed.

(** The source's [simplify], branch by branch. *)
Lemma simplify_Atom (a : string) : simplify (Atom a) = Atom a.
Proof. reflexivity. Qed.

Lemma simplify_Seq (v : list Node) :
  simplify (Seq v) =
  match map simplify v with
  | [c] => simplify c
  | [] => Atom ""
  | newV => Seq newV
  end.
Proof.
  unfold simplify at 1. simpl.
  rewrite (mapM_map _ simplify).
  2:{ intros c Hc. apply simplify_fuel_simplify. apply size_In, Hc. }
  destruct v as [|c0 [|c1 v]]; simpl; try reflexivity.
  rewrite simplify_fuel_simplify; [reflexivity|].
  pose proof (simplify_size c0). lia.
Qed.

Lemma simplify_Alt (v : list Node) :
  simplify (Alt v) = Alt (map simplify v).
Proof.
  unfold simplify at 1. simpl.
  rewrite (mapM_map _ simplify); [reflexivity|].
  intros c Hc. apply simplify_fuel_simplify. apply size_In, Hc.
Qed.

Lemma simplify_Star (c : Node) :
  simplify (Star c) =
  match simplify c with
  | Star vv => vv
  | s => Star s
  end.
Proof.
  unfold simplify at 1. simpl.
  rewrite simplify_fuel_simplify by lia.
  destruct (simplify c); reflexivity.
Qed.

(** A tree of the simplified shape is a fixed point. *)
Lemma simplify_fixed (node : Node) :
  simplified node = true -> simplify node = node.
Proof.
  induction node as [a | v IH | v IH | c IH] using Node_nested_ind; intros H.
  - reflexivity.
  - simpl in H. apply andb_prop in H. destruct H as [Hlen Hall].
    rewrite simplify_Seq.
    assert (Hmap : map simplify v = v).
    { clear Hlen. induction IH as [|c v Hc _ IHv]; simpl in *; [reflexivity|].
      apply andb_prop in Hall. destruct Hall as [H1 H2].
      rewrite Hc, IHv by assumption. reflexivity. }
    rewrite Hmap. destruct v as [|c0 [|c1 v]]; simpl in Hlen; try discriminate.
    reflexivity.
  - simpl in H. rewrite simplify_Alt. f_equal.
    induction IH as [|c v Hc _ IHv]; simpl in *; [reflexivity|].
    apply andb_prop in H. destruct H as [H1 H2].
    rewrite Hc, IHv by assumption. reflexivity.
  - simpl in H. apply andb_prop in H. destruct H as [Hns Hc].
    rewrite simplify_Star, IH by assumption.
    destruct c; simpl in Hns; try discriminate; reflexivity.
Qed.

Lemma Star_neq (n : Node) : Star n <> n.
Proof.
  intros H. apply (f_equal size) in H. simpl in H. lia.
Qed.

(** ** Claims about [simplify] *)

(** C1 (the code departs from the claim).  The claim is that
    [simplify(Star(Star(x)))] equals [simplify(Star(x))], a single star
    being kept.  The [star] branch returns [node.v.v], the child of the
    inner star, so the repetition is lost: for [x = Atom "a"] (the
    pattern [a**]) the result is [Atom "a"] while [simplify(Star(x))] is
    [Star (Atom "a")]; the two sides in fact differ for every [x].
    End to end, the automaton of [a**] rejects "aa". *)
Theorem simplify_star_star_loses_star :
  simplify (Star (Star (Atom "a"))) = Atom "a"
  /\ simplify (Star (Atom "a")) = Star (Atom "a")
  /\ parse "a**" = Return (Atom "a")
  /\ run_test "a**" "aa" = Some false
  /\ forall x, simplify (Star (Star x)) <> simplify (Star x).
Proof.
  split; [reflexivity | split; [reflexivity|]].
  split; [reflexivity | split; [reflexivity|]].
  intros x. rewrite (simplify_Star (Star x)), (simplify_Star x).
  destruct (simplify x) as [a | v | v | y]; simpl.
  - apply not_eq_sym, Star_neq.
  - apply not_eq_sym, Star_neq.
  - apply not_eq_sym, Star_neq.
  - destruct y as [a | v | v | z]; try apply Star_neq.
    apply not_eq_sym, Star_neq.
Qed.

(** C6.  For every tree [t], in [simplify t] every [Seq] has at least
    two children and no [Star] is the direct child of a [Star]; a
    singleton sequence is replaced by its simplified child and the empty
    sequence by the epsilon atom. *)
Theorem simplify_shape :
  (forall t, simplified (simplify t) = true)
  /\ (forall c, simplify (Seq [c]) = simplify c)
  /\ simplify (Seq []) = Atom "".
Proof.
  split; [exact simplify_simplified | split; [|reflexivity]].
  intros c. rewrite simplify_Seq. simpl.
  apply simplify_fixed, simplify_simplified.
Qed.

(** C7.  [simplify] is idempotent. *)
Theorem simplify_idempotent (t : Node) :
  simplify (simplify t) = simplify t.
Proof.
  apply simplify_fixed, simplify_simplified.
Qed.

(** C8.  [simplify] never collapses an alternation: it rebuilds it with
    the simplified children, whatever the arity; a singleton alternation
    stays a singleton alternation. *)
Theorem simplify_alternation_kept :
  (forall v, simplify (Alt v) = Alt (map simplify v))
  /\ (forall x, simplify (Alt [x]) = Alt [simplify x]).
Proof.
  split; [exact simplify_Alt|].
  intros x. rewrite simplify_Alt. reflexivity.
Qed.

(** ** The scanner [p] *)

Lemma get_skip (s : string) : forall i c,
  String.get i s = Some c -> skip i s = String c (skip (S i) s).
Proof.
  induction s as [|c0 s IH]; intros [|i] c H; simpl in *; try discriminate.
  - injection H as ->. destruct s; reflexivity.
  - rewrite (IH i c H). reflexivity.
Qed.

Lemma get_None_skip (s : string) : forall i,
  String.get i s = None -> skip i s = EmptyString.
Proof.
  induction s as [|c0 s IH]; intros [|i] H; simpl in *;
    try discriminate; auto.
Qed.

Lemma get_Some_length (s : string) : forall i c,
  String.get i s = Some c -> i < String.length s.
Proof.
  induction s as [|c0 s IH]; intros [|i] c H; simpl in *;
    try discriminate; try lia.
  apply IH in H. lia.
Qed.

Lemma get_length_None (s : string) : forall i,
  String.length s <= i -> String.get i s = None.
Proof.
  induction s as [|c0 s IH]; intros [|i] H; simpl in *;
    try reflexivity; try lia.
  apply IH. lia.
Qed.

Lemma skip_skip (s : string) : forall a b, skip a (skip b s) = skip (b + a) s.
Proof.
  induction s as [|c0 s IH]; intros a [|b]; simpl; try reflexivity.
  - destruct a; reflexivity.
  - apply IH.
Qed.

Lemma length_append (s1 s2 : string) :
  String.length (s1 ++ s2)%string = String.length s1 + String.length s2.
Proof.
  induction s1 as [|c s1 IH]; simpl; [reflexivity | rewrite IH; reflexivity].
Qed.

(** Case analysis on the character tests of [p]. *)
Ltac char_cases c :=
  let E1 := fresh "Eopen" in
  let E2 := fresh "Eclose" in
  let E3 := fresh "Estar" in
  let E4 := fresh "Ebar" in
  destruct (Ascii.eqb c "(") eqn:E1;
  [| destruct (Ascii.eqb c ")") eqn:E2;
     [| destruct (Ascii.eqb c "*") eqn:E3;
        [| destruct (Ascii.eqb c "|") eqn:E4 ] ] ].

(** [p] never throws 'not everything consumed', a position it returns
    is not before the start and holds the closing parenthesis. *)
Lemma p_loop_returns (fuel : nat) : forall s i node seq alts,
  match p_loop fuel s i node seq alts with
  | Return (j, _) => i <= j /\ charAt s j = Some ")"%char
  | Throw e => e <> NotEverythingConsumed
  | OutOfFuel => True
  end.
Proof.
  induction fuel as [|fuel IH]; intros s i node seq alts; simpl; [exact I|].
  destruct (charAt s i) as [c|] eqn:Ec; [|discriminate].
  char_cases c.
  - pose proof (IH s (i + 1) None [] []) as H1.
    destruct (p_loop fuel s (i + 1) None [] []) as [[i' node']| |]; auto.
    pose proof (IH s (i' + 1) (Some node') (seq ++ [node']) alts) as H2.
    destruct (p_loop fuel s (i' + 1) (Some node') (seq ++ [node']) alts)
      as [[j n]| |]; auto.
    split; [lia | tauto].
  - apply Ascii.eqb_eq in Eclose. subst c.
    destruct (1 <? length (alts ++ [seq])); [split; [lia | exact Ec]|].
    destruct (1 <? length seq); [split; [lia | exact Ec]|].
    destruct node; [split; [lia | exact Ec] | discriminate].
  - destruct node as [n|]; [|discriminate].
    pose proof (IH s (i + 1) (Some (Star n)) (set_last seq (Star n)) alts) as H.
    destruct (p_loop fuel s (i + 1) (Some (Star n)) (set_last seq (Star n)) alts)
      as [[j n']| |]; auto. split; [lia | tauto].
  - pose proof (IH s (i + 1) node [] (alts ++ [seq])) as H.
    destruct (p_loop fuel s (i + 1) node [] (alts ++ [seq])) as [[j n']| |]; auto.
    split; [lia | tauto].
  - pose proof (IH s (i + 1) (Some (Atom (String c ""))) (seq ++ [Atom (String c "")]) alts) as H.
    destruct (p_loop fuel s (i + 1) (Some (Atom (String c ""))) (seq ++ [Atom (String c "")]) alts)
      as [[j n']| |]; auto.
    split; [lia | tauto].
Qed.

(** [p] terminates: one unit of fuel per remaining character and one
    more is enough. *)
Lemma p_loop_enough (fuel : nat) : forall s i node seq alts,
  String.length s - i < fuel -> p_loop fuel s i node seq alts <> OutOfFuel.
Proof.
  induction fuel as [|fuel IH]; intros s i node seq alts Hf; [lia|]. simpl.
  destruct (charAt s i) as [c|] eqn:Ec; [|discriminate].
  pose proof (get_Some_length s i c Ec) as Hi.
  char_cases c.
  - pose proof (IH s (i + 1) None [] []) as H1.
    pose proof (p_loop_returns fuel s (i + 1) None [] []) as R1.
    destruct (p_loop fuel s (i + 1) None [] []) as [[i' node']| |];
      [| discriminate | apply H1; lia].
    apply IH. lia.
  - destruct (1 <? length (alts ++ [seq])); [discriminate|].
    destruct (1 <? length seq); [discriminate|].
    destruct node; discriminate.
  - destruct node as [n|]; [|discriminate]. apply IH. lia.
  - apply IH. lia.
  - apply IH. lia.
Qed.

Lemma p_loop_S (fuel : nat) (s : string) (i : nat) (node : option Node)
  (seq : list Node) (alts : list (list Node)) :
  p_loop (S fuel) s i node seq alts =
  match charAt s i with
  | None => Throw TerminationTooEarly
  | Some c =>
      if Ascii.eqb c "(" then
        match p_loop fuel s (i + 1) None [] [] with
        | Return (i', node') =>
            p_loop fuel s (i' + 1) (Some node') (seq ++ [node']) alts
        | Throw e => Throw e
        | OutOfFuel => OutOfFuel
        end
      else if Ascii.eqb c ")" then
        if 1 <? length (alts ++ [seq]) then
          Return (i, Alt (map Seq (alts ++ [seq])))
        else if 1 <? length seq then Return (i, Seq seq)
        else
          match node with
          | Some n => Return (i, n)
          | None => Throw EmptyParens
          end
      else if Ascii.eqb c "*" then
        match node with
        | Some n =>
            p_loop fuel s (i + 1) (Some (Star n)) (set_last seq (Star n)) alts
        | None => Throw StarWithoutThing
        end
      else if Ascii.eqb c "|" then p_loop fuel s (i + 1) node [] (alts ++ [seq])
      else
        p_loop fuel s (i + 1) (Some (Atom (String c "")))
          (seq ++ [Atom (String c "")]) alts
  end.
Proof. reflexivity. Qed.



(** [parse] terminates. *)
Lemma parse_total (s : string) : parse s <> OutOfFuel.
Proof.
  unfold parse, parse_fuel, p.
  pose proof (p_loop_enough (S (String.length (s ++ ")"))) (s ++ ")") 0 None [] []) as H.
  destruct (p_loop (S (String.length (s ++ ")"))) (s ++ ")") 0 None [] [])
    as [[j n]| |].
  - destruct (negb _); discriminate.
  - discriminate.
  - exfalso. apply H; [lia | reflexivity].
Qed.

(** The scanner does not depend on what precedes position [i]. *)
Lemma p_loop_shift (fuel : nat) : forall c0 s i node seq alts,
  p_loop fuel (String c0 s) (S i) node seq alts
  = shift (p_loop fuel s i node seq alts).
Proof.
  induction fuel as [|fuel IH]; intros c0 s i node seq alts; [reflexivity|].
  simpl. change (charAt (String c0 s) (S i)) with (charAt s i).
  destruct (charAt s i) as [c|] eqn:Ec; [|reflexivity].
  char_cases c.
  - rewrite IH.
    destruct (p_loop fuel s (i + 1) None [] []) as [[i' node']| |];
      try reflexivity.
    simpl. apply IH.
  - destruct (1 <? length (alts ++ [seq])); [reflexivity|].
    destruct (1 <? length seq); [reflexivity|].
    destruct node; reflexivity.
  - destruct node as [n|]; [|reflexivity]. apply IH.
  - apply IH.
  - apply IH.
Qed.

(** ** Parentheses and the position [p] returns *)

Lemma close_pos_compose (t : string) : forall e d k,
  close_pos e t = Some k ->
  close_pos (e + S d) t = option_map (plus (S k)) (close_pos d (skip (S k) t)).
Proof.
  induction t as [|c t IH]; intros e d k H; simpl in H; [discriminate|].
  simpl close_pos.
  destruct (Ascii.eqb c "(") eqn:Eopen.
  - destruct (close_pos (S e) t) as [k'|] eqn:E; [|discriminate].
    injection H as <-. change (S (e + S d)) with (S e + S d).
    change (skip (S (S k')) (String c t)) with (skip (S k') t).
    rewrite (IH (S e) d k' E).
    destruct (close_pos d (skip (S k') t)); reflexivity.
  - destruct (Ascii.eqb c ")") eqn:Eclose.
    + destruct e as [|e].
      * injection H as <-. change (skip 1 (String c t)) with t.
        simpl. destruct (close_pos d t); reflexivity.
      * destruct (close_pos e t) as [k'|] eqn:E; [|discriminate].
        injection H as <-. simpl plus. cbv iota.
        change (skip (S (S k')) (String c t)) with (skip (S k') t).
        rewrite (IH e d k' E).
        destruct (close_pos d (skip (S k') t)); reflexivity.
    + destruct (close_pos e t) as [k'|] eqn:E; [|discriminate].
      injection H as <-.
      change (skip (S (S k')) (String c t)) with (skip (S k') t).
      rewrite (IH e d k' E).
      destruct (close_pos d (skip (S k') t)); reflexivity.
Qed.

Lemma close_pos_None_mono (t : string) : forall e d,
  close_pos e t = None -> close_pos (e + d) t = None.
Proof.
  induction t as [|c t IH]; intros e d H; simpl in *; [reflexivity|].
  destruct (Ascii.eqb c "(").
  - destruct (close_pos (S e) t) eqn:E; [discriminate|].
    change (S (e + d)) with (S e + d). rewrite (IH (S e) d E). reflexivity.
  - destruct (Ascii.eqb c ")").
    + destruct e as [|e]; [discriminate|].
      destruct (close_pos e t) eqn:E; [discriminate|].
      simpl. rewrite (IH e d E). reflexivity.
    + destruct (close_pos e t) eqn:E; [discriminate|].
      rewrite (IH e d E). reflexivity.
Qed.

Lemma close_pos_String (d : nat) (c : ascii) (t : string) :
  close_pos d (String c t) =
  if Ascii.eqb c "(" then option_map S (close_pos (S d) t)
  else if Ascii.eqb c ")" then
    match d with
    | 0 => Some 0
    | S d' => option_map S (close_pos d' t)
    end
  else option_map S (close_pos d t).
Proof. reflexivity. Qed.

(** The position [p] returns is that of the parenthesis closing its
    scope, and [p] throws 'termination too early' only when there is
    none. *)
Lemma p_loop_close (fuel : nat) : forall s i node seq alts,
  match p_loop fuel s i node seq alts with
  | Return (j, _) => close_pos 0 (skip i s) = Some (j - i)
  | Throw TerminationTooEarly => close_pos 0 (skip i s) = None
  | _ => True
  end.
Proof.
  induction fuel as [|fuel IH]; intros s i node seq alts; [exact I|].
  rewrite p_loop_S. unfold charAt.
  destruct (String.get i s) as [c|] eqn:Ec;
    [| rewrite (get_None_skip s i Ec); reflexivity].
  rewrite (get_skip s i c Ec), close_pos_String.
  replace (S i) with (i + 1) by lia.
  assert (Hstep : forall node' seq' alts',
    match p_loop fuel s (i + 1) node' seq' alts' with
    | Return (j, _) => option_map S (close_pos 0 (skip (i + 1) s)) = Some (j - i)
    | Throw TerminationTooEarly => option_map S (close_pos 0 (skip (i + 1) s)) = None
    | _ => True
    end).
  { intros node' seq' alts'.
    pose proof (IH s (i + 1) node' seq' alts') as H.
    pose proof (p_loop_returns fuel s (i + 1) node' seq' alts') as R.
    destruct (p_loop fuel s (i + 1) node' seq' alts') as [[j n]|e|]; auto.
    - rewrite H. simpl. f_equal. lia.
    - destruct e; auto. rewrite H. reflexivity. }
  char_cases c.
  - pose proof (IH s (i + 1) None [] []) as H1.
    pose proof (p_loop_returns fuel s (i + 1) None [] []) as R1.
    destruct (p_loop fuel s (i + 1) None [] []) as [[i' node']|e|]; auto.
    + destruct R1 as [R1 _].
      rewrite (close_pos_compose _ 0 0 _ H1 : close_pos 1 _ = _), skip_skip.
      replace (i + 1 + S (i' - (i + 1))) with (i' + 1) by lia.
      pose proof (IH s (i' + 1) (Some node') (seq ++ [node']) alts) as H2.
      pose proof (p_loop_returns fuel s (i' + 1) (Some node') (seq ++ [node']) alts) as R2.
      destruct (p_loop fuel s (i' + 1) (Some node') (seq ++ [node']) alts)
        as [[j n]|e|]; auto.
      * rewrite H2. simpl. f_equal. lia.
      * destruct e; auto. rewrite H2. reflexivity.
    + destruct e; auto.
      rewrite (close_pos_None_mono _ 0 1 H1 : close_pos 1 _ = _). reflexivity.
  - destruct (1 <? length (alts ++ [seq])); [f_equal; lia|].
    destruct (1 <? length seq); [f_equal; lia|].
    destruct node; [f_equal; lia | exact I].
  - destruct node as [n|]; [apply Hstep | exact I].
  - apply Hstep.
  - apply Hstep.
Qed.

Lemma open_groups_close_pos (q : string) : forall e,
  match open_groups e q with
  | Some 0 => close_pos e (q ++ ")") = Some (String.length q)
  | Some (S _) => close_pos e (q ++ ")") = None
  | None => exists j, j < String.length q /\ close_pos e (q ++ ")") = Some j
  end.
Proof.
  induction q as [|c q IH]; intros e; simpl.
  - destruct e; reflexivity.
  - destruct (Ascii.eqb c "(").
    + specialize (IH (S e)).
      destruct (open_groups (S e) q) as [[|d]|].
      * rewrite IH. reflexivity.
      * rewrite IH. reflexivity.
      * destruct IH as [j [Hj ->]]. exists (S j). split; [lia | reflexivity].
    + destruct (Ascii.eqb c ")").
      * destruct e as [|e]; [exists 0; split; [lia | reflexivity]|].
        specialize (IH e).
        destruct (open_groups e q) as [[|d]|].
        -- rewrite IH. reflexivity.
        -- rewrite IH. reflexivity.
        -- destruct IH as [j [Hj ->]]. exists (S j). split; [lia | reflexivity].
      * specialize (IH e).
        destruct (open_groups e q) as [[|d]|].
        -- rewrite IH. reflexivity.
        -- rewrite IH. reflexivity.
        -- destruct IH as [j [Hj ->]]. exists (S j). split; [lia | reflexivity].
Qed.

(** ** Claims about the errors of [parse] *)

(** C2 (the code departs from the claim).  The claim is that a [*] with
    no preceding term in its alternative, in particular one right after
    [|], aborts the parse with 'star without thing'.  The scanner tests
    [node !== null], and [node] is not reset by [|]: on "a|*" the star
    wraps the stale [node], the assignment [seq.v[seq.v.length - 1]]
    hits index [-1] of the new empty sequence, and an AST comes back.
    The sibling cases are caught for every pattern: a leading star, a
    star right after "(", and a star after a bar that no term precedes. *)
Theorem parse_star_after_bar_accepted :
  star_after_opener "a|*" = true
  /\ parse "a|*" = Return (Alt [Atom "a"; Atom ""])
  /\ (forall q, parse ("*" ++ q) = Throw StarWithoutThing)
  /\ (forall q, parse ("(*" ++ q) = Throw StarWithoutThing)
  /\ (forall q, parse ("|*" ++ q) = Throw StarWithoutThing).
Proof.
  split; [reflexivity|].
  split; [reflexivity | split; [| split]]; intros q; reflexivity.
Qed.

(** C3 as stated fails: the pattern "(" has an unmatched opening
    parenthesis and the error is 'empty parens', because the appended
    ")" closes the group before the scan runs off the end. *)
Lemma parse_open_paren_empty_parens :
  unmatched_open "("
  /\ parse "(" = Throw EmptyParens
  /\ parse "(" <> Throw TerminationTooEarly.
Proof.
  split; [exists 0; reflexivity | split; [reflexivity | discriminate]].
Qed.

(** Where the two other errors of [p] come from: 'empty parens' from a
    ")" met with no term and no bar before it in its scope, 'star
    without thing' from a "*" met while [node] is null. *)
Lemma p_loop_errors (fuel : nat) : forall s i node seq alts,
  match p_loop fuel s i node seq alts with
  | Throw EmptyParens =>
      (node = None /\ alts = [] /\ charAt s i = Some ")"%char)
      \/ exists k, charAt s k = Some "("%char /\ charAt s (S k) = Some ")"%char
  | Throw StarWithoutThing =>
      (node = None /\ charAt s i = Some "*"%char)
      \/ exists k, (charAt s k = Some "("%char \/ charAt s k = Some "|"%char)
                   /\ charAt s (S k) = Some "*"%char
  | _ => True
  end.
Proof.
  induction fuel as [|fuel IH]; intros s i node seq alts; [exact I|].
  rewrite p_loop_S.
  destruct (charAt s i) as [c|] eqn:Ec; [|exact I].
  assert (Hnext : forall n seq' alts',
    match p_loop fuel s (i + 1) (Some n) seq' alts' with
    | Throw EmptyParens =>
        (node = None /\ alts = [] /\ Some c = Some ")"%char)
        \/ exists k, charAt s k = Some "("%char /\ charAt s (S k) = Some ")"%char
    | Throw StarWithoutThing =>
        (node = None /\ Some c = Some "*"%char)
        \/ exists k, (charAt s k = Some "("%char \/ charAt s k = Some "|"%char)
                     /\ charAt s (S k) = Some "*"%char
    | _ => True
    end).
  { intros n seq' alts'. pose proof (IH s (i + 1) (Some n) seq' alts') as H.
    destruct (p_loop fuel s (i + 1) (Some n) seq' alts') as [r|e|]; auto.
    destruct e; auto; destruct H as [[E _]|H]; try discriminate; right; exact H. }
  char_cases c.
  - apply Ascii.eqb_eq in Eopen. subst c.
    pose proof (IH s (i + 1) None [] []) as H1.
    destruct (p_loop fuel s (i + 1) None [] []) as [[i' node']|e|]; auto.
    + pose proof (IH s (i' + 1) (Some node') (seq ++ [node']) alts) as H2.
      destruct (p_loop fuel s (i' + 1) (Some node') (seq ++ [node']) alts)
        as [r|e|]; auto.
      destruct e; auto; destruct H2 as [[E _]|H2]; try discriminate; right; exact H2.
    + replace (i + 1) with (S i) in H1 by lia.
      destruct e; auto; destruct H1 as [H1|H1]; right; try exact H1.
      * exists i. tauto.
      * exists i. tauto.
  - apply Ascii.eqb_eq in Eclose. subst c.
    destruct (1 <? length (alts ++ [seq])) eqn:El; [exact I|].
    destruct (1 <? length seq); [exact I|].
    destruct node as [n|]; [exact I|]. left.
    apply Nat.ltb_ge in El. rewrite length_app in El. simpl in El.
    destruct alts; [auto | simpl in El; lia].
  - apply Ascii.eqb_eq in Estar. subst c.
    destruct node as [n|]; [apply Hnext | left; auto].
  - apply Ascii.eqb_eq in Ebar. subst c.
    pose proof (IH s (i + 1) node [] (alts ++ [seq])) as H.
    destruct (p_loop fuel s (i + 1) node [] (alts ++ [seq])) as [r|e|]; auto.
    replace (i + 1) with (S i) in H by lia.
    destruct e; auto; destruct H as [H|H]; right; try exact H.
    + destruct H as [_ [E _]]. destruct alts; discriminate.
    + exists i. tauto.
  - apply Hnext.
Qed.

Lemma get_append_close_0 (q : string) (c : ascii) :
  String.get 0 (q ++ ")") = Some c ->
  (q = EmptyString /\ c = ")"%char) \/ exists q', q = String c q'.
Proof.
  destruct q as [|c0 q]; simpl; intros H; injection H as <-.
  - left. auto.
  - right. exists q. reflexivity.
Qed.

Lemma empty_group_at (q : string) : forall k,
  String.get k (q ++ ")") = Some "("%char ->
  String.get (S k) (q ++ ")") = Some ")"%char ->
  empty_group q = true.
Proof.
  induction q as [|c q IH]; intros k H1 H2.
  - destruct k as [|[|k]]; simpl in H1; discriminate.
  - destruct k as [|k]; simpl in H1, H2.
    + injection H1 as ->. simpl.
      destruct (get_append_close_0 q _ H2) as [[-> _]|[q' ->]]; reflexivity.
    + simpl. rewrite (IH k H1 H2). apply orb_true_r.
Qed.

Lemma star_after_opener_at (q : string) : forall k,
  String.get k (q ++ ")") = Some "("%char
  \/ String.get k (q ++ ")") = Some "|"%char ->
  String.get (S k) (q ++ ")") = Some "*"%char ->
  star_after_opener q = true.
Proof.
  induction q as [|c q IH]; intros k H1 H2.
  - destruct k as [|[|k]]; simpl in H1; destruct H1; discriminate.
  - destruct k as [|k]; simpl in H1, H2.
    + simpl.
      destruct (get_append_close_0 q _ H2) as [[_ E]|[q' ->]]; [discriminate|].
      simpl. destruct H1 as [H1|H1]; injection H1 as ->; reflexivity.
    + simpl. rewrite (IH k H1 H2). apply orb_true_r.
Qed.

Lemma unmatched_open_first (q : string) (c : ascii) :
  unmatched_open q -> String.get 0 (q ++ ")") = Some c -> c <> ")"%char.
Proof.
  intros [d Hd] H E. subst c.
  destruct (get_append_close_0 q _ H) as [[-> _]|[q' ->]];
    simpl in Hd; discriminate.
Qed.

(** C3, amended.  A pattern with an unmatched opening parenthesis never
    parses.  The error is 'termination too early', unless the scan meets
    first a group that holds nothing (then 'empty parens') or a star at
    the start of the pattern or right after "(" or "|" (then 'star
    without thing').  'termination too early' is the error of no other
    pattern, and it is the error of "(" followed by any pattern that
    parses. *)
Theorem parse_unmatched_open (q : string) :
  (unmatched_open q ->
   parse q = Throw TerminationTooEarly
   \/ (parse q = Throw EmptyParens /\ empty_group q = true)
   \/ (parse q = Throw StarWithoutThing
       /\ (leading_star q || star_after_opener q = true)))
  /\ (parse q = Throw TerminationTooEarly -> unmatched_open q)
  /\ (forall ast, parse q = Return ast ->
      parse ("(" ++ q) = Throw TerminationTooEarly).
Proof.
  pose proof (p_loop_close (S (String.length (q ++ ")"))) (q ++ ")") 0 None [] []) as C.
  pose proof (p_loop_returns (S (String.length (q ++ ")"))) (q ++ ")") 0 None [] []) as R.
  pose proof (p_loop_enough (S (String.length (q ++ ")"))) (q ++ ")") 0 None [] []) as F.
  pose proof (p_loop_errors (S (String.length (q ++ ")"))) (q ++ ")") 0 None [] []) as E.
  pose proof (open_groups_close_pos q 0) as G.
  simpl skip in C.
  split; [|split].
  - intros Hu. pose proof Hu as [d Hd]. rewrite Hd in G.
    unfold parse, parse_fuel, p.
    destruct (p_loop (S (String.length (q ++ ")"))) (q ++ ")") 0 None [] [])
      as [[j n]|e|].
    + rewrite G in C. discriminate.
    + destruct e.
      * right. left. split; [reflexivity|].
        destruct E as [[_ [_ E]]|[k [E1 E2]]].
        -- exfalso. apply (unmatched_open_first q _ Hu E). reflexivity.
        -- apply (empty_group_at q k E1 E2).
      * right. right. split; [reflexivity|].
        destruct E as [[_ E]|[k [E1 E2]]].
        -- destruct (get_append_close_0 q _ E) as [[_ E']|[q' ->]];
             [discriminate | reflexivity].
        -- rewrite (star_after_opener_at q k E1 E2). apply orb_true_r.
      * left. reflexivity.
      * exfalso. apply R. reflexivity.
    + exfalso. apply F; [lia | reflexivity].
  - unfold parse, parse_fuel, p.
    destruct (p_loop (S (String.length (q ++ ")"))) (q ++ ")") 0 None [] [])
      as [[j n]|e|].
    + destruct (negb _); discriminate.
    + intros H. injection H as ->. unfold unmatched_open.
      destruct (open_groups 0 q) as [[|d]|].
      * rewrite G in C. discriminate.
      * exists d. reflexivity.
      * destruct G as [j [_ G]]. rewrite G in C. discriminate.
    + discriminate.
  - intros ast. unfold parse, parse_fuel, p.
    destruct (p_loop (S (String.length (q ++ ")"))) (q ++ ")") 0 None [] [])
      as [[j n]|e|] eqn:Ep; try discriminate.
    destruct (j =? String.length (q ++ ")") - 1) eqn:Ej; [|discriminate].
    intros _. apply Nat.eqb_eq in Ej.
    change (("(" ++ q) ++ ")")%string with (String "(" (q ++ ")")).
    change (String.length (String "(" (q ++ ")")))
      with (S (String.length (q ++ ")"))).
    rewrite p_loop_S. simpl charAt. simpl Ascii.eqb. cbv iota.
    change (0 + 1) with 1. rewrite p_loop_shift, Ep. simpl shift. cbv iota.
    rewrite p_loop_S. unfold charAt.
    rewrite (get_length_None (String "(" (q ++ ")")) (S j + 1)); [reflexivity|].
    simpl. rewrite length_append in *. simpl in *. lia.
Qed.

(** The amended C3 at "(a" and at "a(b|c": a group is never closed, no
    group is empty, no star is dangling, and the error is 'termination
    too early'. *)
Lemma parse_unmatched_open_witness :
  unmatched_open "(a"
  /\ parse ("(" ++ "a") = Throw TerminationTooEarly
  /\ (parse "a(b|c" = Throw TerminationTooEarly
      \/ (parse "a(b|c" = Throw EmptyParens /\ empty_group "a(b|c" = true)
      \/ (parse "a(b|c" = Throw StarWithoutThing
          /\ (leading_star "a(b|c" || star_after_opener "a(b|c" = true))).
Proof.
  split; [| split].
  - apply (proj1 (proj2 (parse_unmatched_open "(a"))). reflexivity.
  - apply (proj2 (proj2 (parse_unmatched_open "a")) (Atom "a")). reflexivity.
  - apply (proj1 (parse_unmatched_open "a(b|c")). exists 0. reflexivity.
Defined.

(** C10.  The empty pattern is rejected: [parse ""] returns no tree, in
    particular not the epsilon atom, and throws 'empty parens', because
    the scan of the augmented input ")" closes the top-level scope with
    no term, whatever the fuel. *)
Theorem parse_empty_pattern :
  parse "" = Throw EmptyParens
  /\ parse "" <> Return (Atom "")
  /\ (forall ast, parse "" <> Return ast)
  /\ (forall fuel, p (S fuel) ("" ++ ")") 0 = Throw EmptyParens).
Proof.
  split; [reflexivity | split; [discriminate | split]].
  - intros ast. discriminate.
  - intros fuel. reflexivity.
Qed.

(** ** Shape of the trees [parse] returns *)

Lemma forallb_removelast {A : Type} (f : A -> bool) (l : list A) :
  forallb f l = true -> forallb f (removelast l) = true.
Proof.
  induction l as [|x [|y l] IH]; simpl in *; intros H; try reflexivity.
  apply andb_prop in H. destruct H as [-> H]. simpl. apply IH, H.
Qed.

Lemma forallb_set_last (f : Node -> bool) (l : list Node) (x : Node) :
  forallb f l = true -> f x = true -> forallb f (set_last l x) = true.
Proof.
  intros Hl Hx. destruct l as [|y l]; [reflexivity|]. unfold set_last.
  rewrite forallb_app, (forallb_removelast f _ Hl). simpl. rewrite Hx. reflexivity.
Qed.

Lemma alts_nonempty_map_Seq (l : list (list Node)) :
  forallb alts_nonempty (map Seq l) = forallb (forallb alts_nonempty) l.
Proof.
  induction l as [|x l IH]; simpl; [reflexivity | rewrite IH; reflexivity].
Qed.

(** Every [Alt] that [p] builds has a child. *)
Lemma p_loop_alts_nonempty (fuel : nat) : forall s i node seq alts,
  (forall n, node = Some n -> alts_nonempty n = true) ->
  forallb alts_nonempty seq = true ->
  forallb (forallb alts_nonempty) alts = true ->
  match p_loop fuel s i node seq alts with
  | Return (_, n) => alts_nonempty n = true
  | _ => True
  end.
Proof.
  induction fuel as [|fuel IH]; intros s i node seq alts Hn Hs Ha; [exact I|].
  rewrite p_loop_S.
  destruct (charAt s i) as [c|] eqn:Ec; [|exact I].
  char_cases c.
  - pose proof (IH s (i + 1) None [] []) as H1.
    destruct (p_loop fuel s (i + 1) None [] []) as [[i' node']| |]; auto.
    assert (H1' : alts_nonempty node' = true)
      by (apply H1; [discriminate | reflexivity | reflexivity]).
    apply IH.
    + intros n E. injection E as <-. exact H1'.
    + rewrite forallb_app, Hs. simpl. rewrite H1'. reflexivity.
    + exact Ha.
  - destruct (1 <? length (alts ++ [seq])).
    + simpl. rewrite length_map, length_app, alts_nonempty_map_Seq, forallb_app.
      simpl. rewrite Ha, Hs. replace (length alts + 1) with (S (length alts)) by lia.
      reflexivity.
    + destruct (1 <? length seq); [exact Hs|].
      destruct node as [n|]; [apply Hn; reflexivity | exact I].
  - destruct node as [n|]; [|exact I].
    assert (Hn' : alts_nonempty (Star n) = true) by (simpl; apply Hn; reflexivity).
    apply IH.
    + intros n' E. injection E as <-. exact Hn'.
    + apply forallb_set_last; assumption.
    + exact Ha.
  - apply IH; [exact Hn | reflexivity|].
    rewrite forallb_app, Ha. simpl. rewrite Hs. reflexivity.
  - apply IH.
    + intros n' E. injection E as <-. reflexivity.
    + rewrite forallb_app, Hs. reflexivity.
    + exact Ha.
Qed.

(** [simplify] on a list of children, without the second call. *)
Lemma simplify_Seq_children (v : list Node) :
  simplify (Seq v) =
  match map simplify v with
  | [c] => c
  | [] => Atom ""
  | newV => Seq newV
  end.
Proof.
  rewrite simplify_Seq. destruct v as [|c0 [|c1 v]]; try reflexivity.
  simpl. apply simplify_fixed, simplify_simplified.
Qed.

Lemma simplify_alts_nonempty (n : Node) :
  alts_nonempty n = true -> alts_nonempty (simplify n) = true.
Proof.
  induction n as [a | v IH | v IH | c IH] using Node_nested_ind; intros H.
  - exact H.
  - rewrite simplify_Seq_children. simpl in H.
    assert (Hall : forallb alts_nonempty (map simplify v) = true).
    { induction IH as [|c v Hc _ IHv]; simpl in *; [reflexivity|].
      apply andb_prop in H. destruct H as [H1 H2].
      rewrite (Hc H1), (IHv H2). reflexivity. }
    destruct (map simplify v) as [|r1 [|r2 newV]]; [reflexivity | | exact Hall].
    simpl in Hall. rewrite andb_true_r in Hall. exact Hall.
  - rewrite simplify_Alt. simpl in *. apply andb_prop in H.
    destruct H as [Hlen H]. rewrite length_map, Hlen. simpl. clear Hlen.
    induction IH as [|c v Hc _ IHv]; simpl in *; [reflexivity|].
    apply andb_prop in H. destruct H as [H1 H2].
    rewrite (Hc H1), IHv; auto.
  - rewrite simplify_Star. simpl in H. specialize (IH H).
    destruct (simplify c); simpl in *; auto.
Qed.

Lemma simplified_nonempty (n : Node) :
  simplified n = true -> alts_nonempty n = true -> nonempty n = true.
Proof.
  induction n as [a | v IH | v IH | c IH] using Node_nested_ind;
    simpl; intros H1 H2.
  - reflexivity.
  - apply andb_prop in H1. destruct H1 as [Hlen H1].
    apply andb_true_intro. split.
    + clear - Hlen. destruct v as [|c0 [|c1 v]]; simpl in *;
        try discriminate; reflexivity.
    + clear Hlen. induction IH as [|c v Hc _ IHv]; simpl in *; [reflexivity|].
      apply andb_prop in H1. apply andb_prop in H2.
      destruct H1 as [A1 A2]. destruct H2 as [B1 B2].
      rewrite (Hc A1 B1), (IHv A2 B2). reflexivity.
  - apply andb_prop in H2. destruct H2 as [Hlen H2]. rewrite Hlen. simpl.
    clear Hlen. induction IH as [|c v Hc _ IHv]; simpl in *; [reflexivity|].
    apply andb_prop in H1. apply andb_prop in H2.
    destruct H1 as [A1 A2]. destruct H2 as [B1 B2].
    rewrite (Hc A1 B1), IHv; auto.
  - apply andb_prop in H1. destruct H1 as [_ H1]. auto.
Qed.

(** A tree returned by [parse] is simplified and has no empty [Seq] or
    [Alt]. *)
Lemma parse_shape (q : string) (ast : Node) :
  parse q = Return ast -> simplified ast = true /\ nonempty ast = true.
Proof.
  unfold parse, parse_fuel, p.
  pose proof (p_loop_alts_nonempty (S (String.length (q ++ ")"))) (q ++ ")") 0
                None [] []) as H.
  destruct (p_loop (S (String.length (q ++ ")"))) (q ++ ")") 0 None [] [])
    as [[j n]| |]; try discriminate.
  destruct (negb _); [discriminate|]. intros E. injection E as <-.
  assert (Hn : alts_nonempty n = true)
    by (apply H; [discriminate | reflexivity | reflexivity]).
  split; [apply simplify_simplified|].
  apply simplified_nonempty; [apply simplify_simplified|].
  apply simplify_alts_nonempty, Hn.
Qed.

(** ** The arena under [makeEdge] *)

Lemma ds_alloc (h : Nfa.Heap) (k : nat) (m : Nfa.Node) :
  Nfa.ds (h ++ repeat [] k) m = Nfa.ds h m.
Proof.
  unfold Nfa.ds. destruct (Nat.lt_ge_cases m (length h)) as [Hm|Hm].
  - apply app_nth1, Hm.
  - rewrite app_nth2 by lia. rewrite (nth_overflow h) by lia.
    generalize (m - length h). clear. induction k as [|k IH]; intros [|i];
      simpl; auto.
Qed.

Lemma push_length (n : Nfa.Node) (e : Nfa.Edge) (h : Nfa.Heap) :
  length (Nfa.push n e h) = length h.
Proof.
  revert n. induction h as [|d h IH]; intros [|n]; simpl; auto.
Qed.

Lemma ds_push_same (n : Nfa.Node) (e : Nfa.Edge) (h : Nfa.Heap) :
  n < length h -> Nfa.ds (Nfa.push n e h) n = Nfa.ds h n ++ [e].
Proof.
  revert n. induction h as [|d h IH]; intros [|n] Hn; simpl in *; try lia.
  - reflexivity.
  - apply IH. lia.
Qed.

Lemma ds_push_other (n m : Nfa.Node) (e : Nfa.Edge) (h : Nfa.Heap) :
  m <> n -> Nfa.ds (Nfa.push n e h) m = Nfa.ds h m.
Proof.
  revert n m. induction h as [|d h IH]; intros [|n] [|m] Hm; simpl in *;
    try reflexivity; try lia.
  apply IH. lia.
Qed.

Lemma newNodes_spec (k : nat) : forall h,
  Nfa.newNodes k h = (seq (length h) k, h ++ repeat [] k).
Proof.
  induction k as [|k IH]; intros h; simpl.
  - rewrite app_nil_r. reflexivity.
  - rewrite IH, length_app, <- app_assoc. simpl.
    replace (length h + 1) with (S (length h)) by lia. reflexivity.
Qed.

Lemma grows_refl (starts : list Nfa.Node) (h : Nfa.Heap) : grows starts h h.
Proof.
  split; [lia | split; [|reflexivity]].
  intros m. exists []. rewrite app_nil_r. reflexivity.
Qed.

Lemma grows_trans (starts : list Nfa.Node) (h1 h2 h3 : Nfa.Heap) :
  grows starts h1 h2 -> grows starts h2 h3 -> grows starts h1 h3.
Proof.
  intros [L1 [M1 U1]] [L2 [M2 U2]]. split; [lia | split].
  - intros m. destruct (M1 m) as [x1 E1]. destruct (M2 m) as [x2 E2].
    exists (x1 ++ x2). rewrite E2, E1, app_assoc. reflexivity.
  - intros m Hm Hs. rewrite U2, U1; auto. lia.
Qed.

Lemma grows_drop (starts starts' : list Nfa.Node) (h h' : Nfa.Heap) :
  (forall m, In m starts -> m < length h -> In m starts') ->
  grows starts h h' -> grows starts' h h'.
Proof.
  intros Hs [L [M U]]. split; [exact L | split; [exact M|]].
  intros m Hm Hn. apply U; [exact Hm|]. intros Hin. apply Hn, Hs; assumption.
Qed.

Lemma grows_push (start : Nfa.Node) (e : Nfa.Edge) (h : Nfa.Heap) :
  start < length h -> grows [start] h (Nfa.push start e h).
Proof.
  intros Hs. split; [rewrite push_length; lia | split].
  - intros m. destruct (Nat.eq_dec m start) as [->|Hm].
    + exists [e]. apply ds_push_same, Hs.
    + exists []. rewrite app_nil_r. apply ds_push_other, Hm.
  - intros m _ Hm. apply ds_push_other. intros ->. apply Hm. left. reflexivity.
Qed.

Lemma grows_alloc (starts : list Nfa.Node) (h : Nfa.Heap) (k : nat) :
  grows starts h (h ++ repeat [] k).
Proof.
  split; [rewrite length_app; lia | split].
  - intros m. exists []. rewrite app_nil_r. apply ds_alloc.
  - intros m _ _. apply ds_alloc.
Qed.

Lemma grows_length (starts : list Nfa.Node) (h h' : Nfa.Heap) :
  grows starts h h' -> length h <= length h'.
Proof. intros [L _]. exact L. Qed.

Lemma grows_In (starts : list Nfa.Node) (h h' : Nfa.Heap) (n : Nfa.Node)
  (e : Nfa.Edge) :
  grows starts h h' -> In e (Nfa.ds h n) -> In e (Nfa.ds h' n).
Proof.
  intros [_ [M _]] H. destruct (M n) as [x ->]. apply in_or_app. left. exact H.
Qed.

Lemma live_grows (starts : list Nfa.Node) (h h' : Nfa.Heap) (m : Nfa.Node) :
  grows starts h h' -> live h m -> live h' m.
Proof.
  intros [_ [M _]] H. unfold live in *. destruct (M m) as [x ->].
  destruct (Nfa.ds h m); [contradiction | discriminate].
Qed.

Lemma path_grows (starts : list Nfa.Node) (h h' : Nfa.Heap) (a b : Nfa.Node) :
  grows starts h h' -> path h a b -> path h' a b.
Proof.
  intros G. induction 1 as [n | n e m He _ IH]; [apply path_refl|].
  apply (path_step h' n e m); [apply (grows_In _ _ _ _ _ G He) | exact IH].
Qed.

Lemma path_trans (h : Nfa.Heap) (a b c : Nfa.Node) :
  path h a b -> path h b c -> path h a c.
Proof.
  induction 1 as [n | n e m He _ IH]; intros H; [exact H|].
  apply (path_step h n e c He). apply IH, H.
Qed.

Lemma live_push (start : Nfa.Node) (e : Nfa.Edge) (h : Nfa.Heap) :
  start < length h -> live (Nfa.push start e h) start.
Proof.
  intros Hs. unfold live. rewrite ds_push_same by exact Hs.
  destruct (Nfa.ds h start); discriminate.
Qed.

Lemma path_push (start : Nfa.Node) (e : Nfa.Edge) (h : Nfa.Heap) :
  start < length h -> path (Nfa.push start e h) start (Nfa.t e).
Proof.
  intros Hs. apply (path_step _ start e); [|apply path_refl].
  rewrite ds_push_same by exact Hs. apply in_or_app. right. left. reflexivity.
Qed.

Lemma makeEdge_ok_Atom (a : string) : makeEdge_ok (Atom a).
Proof.
  intros h start end_ Hs He. simpl. split; [apply grows_push, Hs|].
  intros _. split; [apply live_push, Hs | split].
  - intros m Hm. rewrite push_length in Hm. lia.
  - apply (path_push start (Nfa.mkEdge a end_) h Hs).
Qed.

Lemma makeEdge_ok_Star (c : Node) : makeEdge_ok c -> makeEdge_ok (Star c).
Proof.
  intros IH h start end_ Hs He. simpl.
  change [[]] with (@repeat (list Nfa.Edge) [] 1).
  set (middle := length h).
  set (h1 := h ++ repeat [] 1).
  set (h2 := Nfa.push start (Nfa.mkEdge "" middle) h1).
  set (h3 := makeEdge c middle middle h2).
  set (h' := Nfa.push middle (Nfa.mkEdge "" end_) h3).
  assert (L1 : length h1 = S (length h))
    by (unfold h1; rewrite length_app; simpl; lia).
  assert (L2 : length h2 = S (length h))
    by (unfold h2; rewrite push_length; exact L1).
  assert (G1 : grows [start; middle] h h1) by apply grows_alloc.
  assert (G2 : grows [start] h1 h2) by (apply grows_push; lia).
  destruct (IH h2 middle middle) as [G3 F3]; try (unfold middle; lia).
  fold h3 in G3, F3.
  pose proof (grows_length _ _ _ G3) as L3.
  assert (G4 : grows [middle] h3 h') by (apply grows_push; unfold middle; lia).
  assert (L4 : length h' = length h3) by (unfold h'; apply push_length).
  assert (G24 : grows [start; middle] h2 h').
  { apply (grows_trans _ h2 h3 h').
    - apply (grows_drop [middle]); [|exact G3]. intros m [<-|[]] _. right. left. reflexivity.
    - apply (grows_drop [middle]); [|exact G4]. intros m [<-|[]] _. right. left. reflexivity. }
  split.
  - apply (grows_drop [start; middle]).
    + intros m [<-|[<-|[]]] Hm; [left; reflexivity | unfold middle in Hm; lia].
    + apply (grows_trans _ h h1 h'); [exact G1|].
      apply (grows_trans _ h1 h2 h'); [|exact G24].
      apply (grows_drop [start]); [|exact G2]. intros m [<-|[]] _. left. reflexivity.
  - intros Hne. simpl in Hne. specialize (F3 Hne). destruct F3 as [_ [F3 _]].
    split; [|split].
    + apply (live_grows _ _ _ _ G24). apply live_push. lia.
    + intros m Hm. destruct (Nat.eq_dec m middle) as [->|Hmid].
      * apply live_push. unfold middle. lia.
      * apply (live_grows _ _ _ _ G4). apply F3. unfold middle in Hmid. lia.
    + apply (path_trans _ _ middle).
      * apply (path_grows _ _ _ _ _ G24).
        apply (path_push start (Nfa.mkEdge "" middle) h1). lia.
      * apply (path_push middle (Nfa.mkEdge "" end_) h3). unfold middle. lia.
Qed.

Lemma fold_makeEdge_ok (v : list Node) :
  Forall makeEdge_ok v ->
  forall h start end_, start < length h -> end_ < length h ->
  grows [start] h (fold_left (fun h n => makeEdge n start end_ h) v h)
  /\ (forallb nonempty v = true ->
      (v <> [] ->
       live (fold_left (fun h n => makeEdge n start end_ h) v h) start
       /\ path (fold_left (fun h n => makeEdge n start end_ h) v h) start end_)
      /\ (forall m,
          length h <= m < length (fold_left (fun h n => makeEdge n start end_ h) v h) ->
          live (fold_left (fun h n => makeEdge n start end_ h) v h) m)).
Proof.
  induction 1 as [|c v Hc _ IH]; intros h start end_ Hs He; simpl.
  - split; [apply grows_refl|]. intros _. split; [intros H; contradiction H; reflexivity|].
    intros m Hm. lia.
  - destruct (Hc h start end_ Hs He) as [G1 F1].
    pose proof (grows_length _ _ _ G1) as L1.
    destruct (IH (makeEdge c start end_ h) start end_) as [G2 F2]; try lia.
    split; [apply (grows_trans _ _ _ _ G1 G2)|].
    intros Hne. apply andb_prop in Hne. destruct Hne as [Hc1 Hv].
    destruct (F1 Hc1) as [A1 [A2 A3]]. destruct (F2 Hv) as [_ B2].
    split.
    + intros _. split; [apply (live_grows _ _ _ _ G2 A1) | apply (path_grows _ _ _ _ _ G2 A3)].
    + intros m Hm.
      destruct (Nat.lt_ge_cases m (length (makeEdge c start end_ h))) as [Hlt|Hge].
      * apply (live_grows _ _ _ _ G2). apply A2. lia.
      * apply B2. lia.
Qed.

Lemma walk_makeEdge_ok (cs : list Node) :
  Forall makeEdge_ok cs ->
  forall mids end_ last h,
  length mids + 1 = length cs ->
  last < length h -> end_ < length h ->
  Forall (fun n => n < length h) mids ->
  grows (last :: mids) h (walk makeEdge cs (mids ++ [end_]) last h)
  /\ (forallb nonempty cs = true ->
      live (walk makeEdge cs (mids ++ [end_]) last h) last
      /\ (forall m, In m mids -> live (walk makeEdge cs (mids ++ [end_]) last h) m)
      /\ (forall m,
          length h <= m < length (walk makeEdge cs (mids ++ [end_]) last h) ->
          live (walk makeEdge cs (mids ++ [end_]) last h) m)
      /\ path (walk makeEdge cs (mids ++ [end_]) last h) last end_).
Proof.
  induction 1 as [|c cs Hc _ IH]; intros mids end_ last h Hlen Hl He Hm;
    simpl in Hlen; [lia|].
  destruct mids as [|next mids].
  - destruct cs as [|c' cs]; [|simpl in Hlen; lia]. simpl.
    destruct (Hc h last end_ Hl He) as [G F]. split; [exact G|].
    intros Hne. rewrite andb_true_r in Hne. destruct (F Hne) as [A1 [A2 A3]].
    split; [exact A1 | split; [intros m [] | split; [exact A2 | exact A3]]].
  - simpl. inversion Hm as [|x l Hnext Hmids]; subst.
    destruct (Hc h last next Hl Hnext) as [G1 F1].
    pose proof (grows_length _ _ _ G1) as L1.
    destruct (IH mids end_ next (makeEdge c last next h)) as [G2 F2];
      try (simpl in Hlen; lia).
    { apply Forall_forall. intros m Hin.
      rewrite Forall_forall in Hmids. specialize (Hmids m Hin). lia. }
    split.
    + apply (grows_trans _ _ (makeEdge c last next h)).
      * apply (grows_drop [last]); [|exact G1]. intros m [<-|[]] _. left. reflexivity.
      * apply (grows_drop (next :: mids)); [|exact G2]. intros m Hin _. right. exact Hin.
    + intros Hne. apply andb_prop in Hne. destruct Hne as [Hc1 Hv].
      destruct (F1 Hc1) as [A1 [A2 A3]]. destruct (F2 Hv) as [B1 [B2 [B3 B4]]].
      split; [apply (live_grows _ _ _ _ G2 A1) | split; [|split]].
      * intros m [<-|Hin]; [exact B1 | apply B2, Hin].
      * intros m Hrange.
        destruct (Nat.lt_ge_cases m (length (makeEdge c last next h))) as [Hlt|Hge].
        -- apply (live_grows _ _ _ _ G2). apply A2. lia.
        -- apply B3. lia.
      * apply (path_trans _ _ next); [apply (path_grows _ _ _ _ _ G2 A3) | exact B4].
Qed.

Lemma makeEdge_ok_Seq (v : list Node) :
  Forall makeEdge_ok v -> makeEdge_ok (Seq v).
Proof.
  intros IH h start end_ Hs He. simpl makeEdge. rewrite newNodes_spec.
  destruct v as [|c v].
  - simpl. rewrite app_nil_r. split; [apply grows_refl | discriminate].
  - replace (length (c :: v) - 1) with (length v) by (simpl; lia).
    set (fresh := seq (length h) (length v)).
    set (h1 := h ++ repeat [] (length v)).
    assert (L1 : length h1 = length h + length v)
      by (unfold h1; rewrite length_app, repeat_length; reflexivity).
    assert (Hfresh : forall m, In m fresh <-> length h <= m < length h1)
      by (intros m; unfold fresh; rewrite in_seq; lia).
    destruct (walk_makeEdge_ok (c :: v) IH fresh end_ start h1) as [G F];
      try lia.
    { unfold fresh. rewrite length_seq. simpl. lia. }
    { apply Forall_forall. intros m Hin. apply Hfresh in Hin. lia. }
    split.
    + apply (grows_drop (start :: fresh)).
      * intros m [<-|Hin] Hm; [left; reflexivity|]. apply Hfresh in Hin. lia.
      * apply (grows_trans _ h h1); [apply grows_alloc | exact G].
    + intros Hne. change (forallb nonempty (c :: v) = true) in Hne.
      destruct (F Hne) as [A1 [A2 [A3 A4]]].
      split; [exact A1 | split; [|exact A4]].
      intros m Hm. destruct (Nat.lt_ge_cases m (length h1)) as [Hlt|Hge].
      * apply A2, Hfresh. lia.
      * apply A3. split; [exact Hge | apply Hm].
Qed.

Lemma makeEdge_ok_Alt (v : list Node) :
  Forall makeEdge_ok v -> makeEdge_ok (Alt v).
Proof.
  intros IH h start end_ Hs He. simpl makeEdge.
  destruct (fold_makeEdge_ok v IH h start end_ Hs He) as [G F].
  split; [exact G|]. intros Hne. simpl in Hne. apply andb_prop in Hne.
  destruct Hne as [Hlen Hv]. destruct (F Hv) as [A B].
  destruct A as [A1 A2]; [intros ->; discriminate|].
  split; [exact A1 | split; [exact B | exact A2]].
Qed.

(** Every call of [makeEdge] adds edges only out of [start] and out of
    the nodes it allocates; for a tree without empty [Seq] or [Alt] it
    leaves [start] and each allocated node with an edge, and [end]
    reachable from [start]. *)
Lemma makeEdge_all_ok (ast : Node) : makeEdge_ok ast.
Proof.
  induction ast as [a | v IH | v IH | c IH] using Node_nested_ind.
  - apply makeEdge_ok_Atom.
  - apply makeEdge_ok_Seq, IH.
  - apply makeEdge_ok_Alt, IH.
  - apply makeEdge_ok_Star, IH.
Qed.

(** ** Claim about [makeNfa] *)

(** C5.  For every tree returned by [parse], the automaton of [makeNfa]
    has exactly one node without outgoing edge, the top-level end node:
    every other node (the start node, the intermediate nodes of the
    sequences, the middle nodes of the stars) has an outgoing edge.  The
    end node is reachable from the start node. *)
Theorem makeNfa_single_sink (q : string) (ast : Node) :
  parse q = Return ast ->
  endNode < length (snd (makeNfa ast))
  /\ (forall m, m < length (snd (makeNfa ast)) ->
      (length (Nfa.ds (snd (makeNfa ast)) m) = 0 <-> m = endNode))
  /\ path (snd (makeNfa ast)) (fst (makeNfa ast)) endNode.
Proof.
  intros Hp. destruct (parse_shape q ast Hp) as [_ Hne].
  unfold makeNfa, endNode. simpl.
  destruct (makeEdge_all_ok ast [[]; []] 0 1) as [G F]; simpl; try lia.
  destruct (F Hne) as [A1 [A2 A3]]. destruct G as [L [_ U]]. simpl in L.
  split; [lia | split; [|exact A3]].
  intros m Hm. split.
  - intros Hz. destruct m as [|[|m]]; [| reflexivity |].
    + exfalso. apply A1. apply length_zero_iff_nil, Hz.
    + exfalso. apply (A2 (S (S m))); [simpl; lia|].
      apply length_zero_iff_nil, Hz.
  - intros ->. rewrite U; [reflexivity | simpl; lia|].
    intros [E|[]]. discriminate.
Qed.

(** C5 at the pattern "a(b|c)d*". *)
Lemma makeNfa_single_sink_witness :
  endNode < length (snd (makeNfa (Seq [Atom "a"; Alt [Atom "b"; Atom "c"]; Star (Atom "d")])))
  /\ (forall m, m < length (snd (makeNfa (Seq [Atom "a"; Alt [Atom "b"; Atom "c"]; Star (Atom "d")]))) ->
      (length (Nfa.ds (snd (makeNfa (Seq [Atom "a"; Alt [Atom "b"; Atom "c"]; Star (Atom "d")]))) m) = 0
       <-> m = endNode))
  /\ path (snd (makeNfa (Seq [Atom "a"; Alt [Atom "b"; Atom "c"]; Star (Atom "d")])))
       (fst (makeNfa (Seq [Atom "a"; Alt [Atom "b"; Atom "c"]; Star (Atom "d")]))) endNode.
Proof.
  apply (makeNfa_single_sink "a(b|c)d*"). reflexivity.
Defined.

(** ** [addNodeToSet] *)

Lemma addNodeToSet_S (fuel : nat) (h : Nfa.Heap) (set : list Nfa.Node)
  (n : Nfa.Node) :
  addNodeToSet (S fuel) h set n =
  if has set n then Some set
  else fold_left (visit (fun e => String.eqb (Nfa.v e) "") fuel h)
         (Nfa.ds h n) (Some (set ++ [n])).
Proof. reflexivity. Qed.

Lemma has_In (set : list Nfa.Node) (n : Nfa.Node) :
  has set n = true <-> In n set.
Proof.
  unfold has. rewrite existsb_exists. split.
  - intros [x [Hx E]]. apply Nat.eqb_eq in E. subst. exact Hx.
  - intros H. exists n. split; [exact H | apply Nat.eqb_refl].
Qed.

Lemma has_not_In (set : list Nfa.Node) (n : Nfa.Node) :
  has set n = false <-> ~ In n set.
Proof.
  rewrite <- has_In. destruct (has set n); split; intros H;
    try discriminate; try reflexivity; auto.
  exfalso. apply H. reflexivity.
Qed.

Lemma fold_visit_None (test : Nfa.Edge -> bool) (fuel : nat) (h : Nfa.Heap)
  (es : list Nfa.Edge) :
  fold_left (visit test fuel h) es None = None.
Proof. induction es as [|e es IH]; simpl; auto. Qed.

Section Visit.
Variable test : Nfa.Edge -> bool.
Variable fuel : nat.
Variable h : Nfa.Heap.
Hypothesis Hadd : forall set n set',
  addNodeToSet fuel h set n = Some set' -> added h set n set'.

Lemma fold_visit_spec (es : list Nfa.Edge) : forall acc acc',
  fold_left (visit test fuel h) es (Some acc) = Some acc' ->
  incl acc acc'
  /\ (forall x, In x acc' ->
      In x acc \/ exists e, In e es /\ test e = true /\ eps_path h (Nfa.t e) x)
  /\ (forall e, In e es -> test e = true -> In (Nfa.t e) acc')
  /\ (forall x, In x acc' -> ~ In x acc ->
      forall e, In e (Nfa.ds h x) -> Nfa.v e = "" -> In (Nfa.t e) acc').
Proof.
  induction es as [|e es IH]; intros acc acc' H; simpl in H.
  - injection H as <-. split; [apply incl_refl | split; [auto | split]].
    + intros e [].
    + intros x Hx Hn. contradiction.
  - destruct (test e) eqn:Et.
    + destruct (addNodeToSet fuel h acc (Nfa.t e)) as [acc1|] eqn:E1;
        [| rewrite fold_visit_None in H; discriminate].
      destruct (Hadd _ _ _ E1) as [A1 [A2 [A3 A4]]].
      destruct (IH acc1 acc' H) as [B1 [B2 [B3 B4]]].
      split; [| split; [| split]].
      * intros x Hx. apply B1, A1, Hx.
      * intros x Hx. destruct (B2 x Hx) as [Hx1 | [e' [He' [Ht' Hp]]]].
        -- destruct (A3 x Hx1) as [Hx0 | Hp]; [left; exact Hx0|].
           right. exists e. split; [left; reflexivity | split; assumption].
        -- right. exists e'. split; [right; exact He' | split; assumption].
      * intros e' [<- | He'] Ht'; [apply B1, A2 | apply B3; assumption].
      * intros x Hx Hn e' He' Hv.
        destruct (in_dec Nat.eq_dec x acc1) as [Hin | Hnin].
        -- apply B1. apply (A4 x Hin Hn e' He' Hv).
        -- apply (B4 x Hx Hnin e' He' Hv).
    + destruct (IH acc acc' H) as [B1 [B2 [B3 B4]]].
      split; [exact B1 | split; [| split; [| exact B4]]].
      * intros x Hx. destruct (B2 x Hx) as [Hx1 | [e' [He' [Ht' Hp]]]];
          [left; exact Hx1|].
        right. exists e'. split; [right; exact He' | split; assumption].
      * intros e' [<- | He'] Ht'; [rewrite Et in Ht'; discriminate|].
        apply B3; assumption.
Qed.

End Visit.

(** [addNodeToSet(set, n)] adds [n] and nodes that epsilon edges reach
    from [n], and every node it adds has its epsilon successors in the
    resulting set. *)
Lemma addNodeToSet_added (fuel : nat) : forall h set n set',
  addNodeToSet fuel h set n = Some set' -> added h set n set'.
Proof.
  induction fuel as [|fuel IH]; intros h set n set' H; [discriminate|].
  rewrite addNodeToSet_S in H.
  destruct (has set n) eqn:Eh.
  - injection H as <-. apply has_In in Eh.
    split; [apply incl_refl | split; [exact Eh | split; [auto|]]].
    intros x Hx Hn. contradiction.
  - apply has_not_In in Eh.
    destruct (fold_visit_spec _ fuel h (IH h) _ _ _ H) as [B1 [B2 [B3 B4]]].
    split; [| split; [| split]].
    + intros x Hx. apply B1, in_or_app. left. exact Hx.
    + apply B1, in_or_app. right. left. reflexivity.
    + intros x Hx. destruct (B2 x Hx) as [Hx1 | [e [He [Ht Hp]]]].
      * apply in_app_or in Hx1. destruct Hx1 as [Hx1 | [<- | []]];
          [left; exact Hx1 | right; apply eps_refl].
      * right. apply String.eqb_eq in Ht. apply (eps_step h n e x He Ht Hp).
    + intros x Hx Hn e He Hv. destruct (Nat.eq_dec x n) as [-> | Hxn].
      * apply (B3 e He). apply String.eqb_eq, Hv.
      * apply (B4 x Hx); [|exact He | exact Hv]. intros Hin.
        apply in_app_or in Hin. destruct Hin as [Hin | [E | []]];
          [apply Hn, Hin | apply Hxn; symmetry; exact E].
Qed.

(** *** Termination of [addNodeToSet] *)

Lemma filter_length_le {A : Type} (f g : A -> bool) (l : list A) :
  (forall x, f x = true -> g x = true) ->
  length (filter f l) <= length (filter g l).
Proof.
  intros Hfg. induction l as [|x l IH]; simpl; [lia|].
  destruct (f x) eqn:Ef.
  - rewrite (Hfg x Ef). simpl. lia.
  - destruct (g x); simpl; lia.
Qed.

Lemma filter_length_lt {A : Type} (f g : A -> bool) (l : list A) (a : A) :
  (forall x, f x = true -> g x = true) ->
  In a l -> g a = true -> f a = false ->
  length (filter f l) < length (filter g l).
Proof.
  intros Hfg. induction l as [|x l IH]; simpl; intros Hin Hg Hf; [contradiction|].
  pose proof (filter_length_le f g l Hfg) as Hle.
  destruct Hin as [-> | Hin].
  - rewrite Hg, Hf. simpl. lia.
  - specialize (IH Hin Hg Hf). destruct (f x) eqn:Ef.
    + rewrite (Hfg x Ef). simpl. lia.
    + destruct (g x); simpl; lia.
Qed.

Lemma unvisited_le (h : Nfa.Heap) (set : list Nfa.Node) :
  unvisited h set <= length h.
Proof.
  unfold unvisited.
  pose proof (filter_length_le (fun m => negb (has set m)) (fun _ => true)
                (seq 0 (length h)) (fun _ _ => eq_refl)) as H.
  rewrite (forallb_filter_id (fun _ => true)) in H.
  - rewrite length_seq in H. exact H.
  - apply forallb_forall. reflexivity.
Qed.

Lemma unvisited_incl (h : Nfa.Heap) (set set' : list Nfa.Node) :
  incl set set' -> unvisited h set' <= unvisited h set.
Proof.
  intros Hi. apply filter_length_le. intros x Hx.
  apply negb_true_iff in Hx. apply negb_true_iff.
  apply has_not_In. apply has_not_In in Hx. intros Hin. apply Hx, Hi, Hin.
Qed.

Lemma unvisited_add (h : Nfa.Heap) (set : list Nfa.Node) (n : Nfa.Node) :
  n < length h -> ~ In n set ->
  unvisited h (set ++ [n]) < unvisited h set.
Proof.
  intros Hn Hnin. apply (filter_length_lt _ _ _ n).
  - intros x Hx. apply negb_true_iff in Hx. apply negb_true_iff.
    apply has_not_In. apply has_not_In in Hx. intros Hin. apply Hx.
    apply in_or_app. left. exact Hin.
  - apply in_seq. lia.
  - apply negb_true_iff, has_not_In, Hnin.
  - apply negb_false_iff, has_In, in_or_app. right. left. reflexivity.
Qed.

Lemma fold_visit_enough (test : Nfa.Edge -> bool) (fuel : nat) (h : Nfa.Heap) :
  (forall set n, unvisited h set < fuel ->
                 exists set', addNodeToSet fuel h set n = Some set') ->
  forall es acc, unvisited h acc < fuel ->
  exists acc', fold_left (visit test fuel h) es (Some acc) = Some acc'.
Proof.
  intros Hfuel. induction es as [|e es IH]; intros acc Hacc; simpl.
  - exists acc. reflexivity.
  - destruct (test e).
    + destruct (Hfuel acc (Nfa.t e) Hacc) as [acc1 E1]. rewrite E1.
      apply IH. destruct (addNodeToSet_added _ _ _ _ _ E1) as [Hi _].
      pose proof (unvisited_incl h _ _ Hi). lia.
    + apply IH, Hacc.
Qed.

(** [addNodeToSet] returns as soon as the fuel exceeds the number of
    nodes that are not in the set yet: a nested call is made only after
    a node has been added. *)
Lemma addNodeToSet_enough (fuel : nat) : forall h set n,
  unvisited h set < fuel -> exists set', addNodeToSet fuel h set n = Some set'.
Proof.
  induction fuel as [|fuel IH]; intros h set n Hf; [lia|].
  rewrite addNodeToSet_S. destruct (has set n) eqn:Eh.
  - exists set. reflexivity.
  - apply has_not_In in Eh.
    destruct (Nat.lt_ge_cases n (length h)) as [Hn | Hn].
    + apply fold_visit_enough; [apply IH|].
      pose proof (unvisited_add h set n Hn Eh). lia.
    + unfold Nfa.ds. rewrite nth_overflow by exact Hn. simpl.
      exists (set ++ [n]). reflexivity.
Qed.

(** The set never holds a node twice. *)
Lemma fold_visit_NoDup (test : Nfa.Edge -> bool) (fuel : nat) (h : Nfa.Heap) :
  (forall set n set', NoDup set -> addNodeToSet fuel h set n = Some set' ->
                      NoDup set') ->
  forall es acc acc', NoDup acc ->
  fold_left (visit test fuel h) es (Some acc) = Some acc' -> NoDup acc'.
Proof.
  intros Hnd. induction es as [|e es IH]; intros acc acc' Hacc H; simpl in H.
  - injection H as <-. exact Hacc.
  - destruct (test e); [|apply (IH acc acc' Hacc H)].
    destruct (addNodeToSet fuel h acc (Nfa.t e)) as [acc1|] eqn:E1;
      [| rewrite fold_visit_None in H; discriminate].
    apply (IH acc1 acc'); [apply (Hnd _ _ _ Hacc E1) | exact H].
Qed.

Lemma addNodeToSet_NoDup (fuel : nat) : forall h set n set',
  NoDup set -> addNodeToSet fuel h set n = Some set' -> NoDup set'.
Proof.
  induction fuel as [|fuel IH]; intros h set n set' Hnd H; [discriminate|].
  rewrite addNodeToSet_S in H. destruct (has set n) eqn:Eh.
  - injection H as <-. exact Hnd.
  - apply has_not_In in Eh.
    apply (fold_visit_NoDup _ fuel h (IH h) _ _ _) in H; [exact H|].
    apply NoDup_app; [exact Hnd | constructor; [intros [] | constructor] |].
    intros x Hx [<- | []]. apply Eh, Hx.
Qed.

(** ** The simulation *)

Lemma fold_left_flat_map {A B C : Type} (f : A -> C -> A) (g : B -> list C)
  (l : list B) : forall a,
  fold_left (fun acc n => fold_left f (g n) acc) l a
  = fold_left f (flat_map g l) a.
Proof.
  induction l as [|x l IH]; intros a; simpl; [reflexivity|].
  rewrite fold_left_app. apply IH.
Qed.

Lemma step_visit (fuel : nat) (h : Nfa.Heap) (ns : list Nfa.Node) (c : ascii) :
  step fuel h ns c =
  fold_left (visit (fun e => String.eqb (String c "") (Nfa.v e)) fuel h)
    (flat_map (Nfa.ds h) ns) (Some []).
Proof.
  unfold step.
  apply (fold_left_flat_map
           (visit (fun e => String.eqb (String c "") (Nfa.v e)) fuel h)
           (Nfa.ds h) ns (Some [])).
Qed.


Lemma eps_path_run (h : Nfa.Heap) (a b m : Nfa.Node) (str : string) :
  eps_path h a b -> run h b str m -> run h a str m.
Proof.
  induction 1 as [n | n e x He Hv _ IH]; intros Hr; [exact Hr|].
  apply (run_eps h n e str m He Hv). apply IH, Hr.
Qed.

(** The set built for one character: the nodes reached from [ns] by an
    edge labelled with that character, then epsilon edges. *)
Lemma step_spec (fuel : nat) (h : Nfa.Heap) (ns newNs : list Nfa.Node)
  (c : ascii) :
  step fuel h ns c = Some newNs ->
  eps_closed h newNs
  /\ (forall x, In x newNs ->
      exists n e, In n ns /\ In e (Nfa.ds h n)
                  /\ Nfa.v e = String c "" /\ eps_path h (Nfa.t e) x)
  /\ (forall n e, In n ns -> In e (Nfa.ds h n) -> Nfa.v e = String c "" ->
      In (Nfa.t e) newNs).
Proof.
  rewrite step_visit. intros H.
  destruct (fold_visit_spec _ fuel h (addNodeToSet_added fuel h) _ _ _ H)
    as [_ [B2 [B3 B4]]].
  split; [| split].
  - intros x Hx. apply (B4 x Hx). intros [].
  - intros x Hx. destruct (B2 x Hx) as [[] | [e [He [Ht Hp]]]].
    apply in_flat_map in He. destruct He as [n [Hn He]].
    apply String.eqb_eq in Ht. exists n, e. auto.
  - intros n e Hn He Hv. apply (B3 e).
    + apply in_flat_map. exists n. split; assumption.
    + apply String.eqb_eq. symmetry. exact Hv.
Qed.

Lemma step_enough (fuel : nat) (h : Nfa.Heap) (ns : list Nfa.Node) (c : ascii) :
  length h < fuel -> exists newNs, step fuel h ns c = Some newNs.
Proof.
  intros Hf. rewrite step_visit. apply fold_visit_enough.
  - intros set n _. apply addNodeToSet_enough.
    pose proof (unvisited_le h set). lia.
  - pose proof (unvisited_le h []). lia.
Qed.

Lemma match_loop_enough (fuel : nat) (h : Nfa.Heap) (str : string) :
  length h < fuel ->
  forall ns, exists ns', match_loop fuel h ns str = Some ns'.
Proof.
  intros Hf. induction str as [|c str IH]; intros ns; simpl.
  - exists ns. reflexivity.
  - destruct (step_enough fuel h ns c Hf) as [newNs ->]. apply IH.
Qed.

(** Every node of the final set ends a run over the whole string. *)
Lemma match_loop_sound (fuel : nat) (h : Nfa.Heap) (str : string) :
  forall ns ns', match_loop fuel h ns str = Some ns' ->
  forall x, In x ns' -> exists n, In n ns /\ run h n str x.
Proof.
  induction str as [|c str IH]; intros ns ns' H x Hx; simpl in H.
  - injection H as <-. exists x. split; [exact Hx | apply run_done].
  - destruct (step fuel h ns c) as [newNs|] eqn:Es; [|discriminate].
    destruct (step_spec _ _ _ _ _ Es) as [_ [S2 _]].
    destruct (IH newNs ns' H x Hx) as [n' [Hn' Hr]].
    destruct (S2 n' Hn') as [n [e [Hn [He [Hv Hp]]]]].
    exists n. split; [exact Hn|].
    apply (run_char h n e c str x He Hv). apply (eps_path_run h _ n'); assumption.
Qed.

(** Every run over the whole string ends in the final set. *)
Lemma match_loop_complete (fuel : nat) (h : Nfa.Heap) (n x : Nfa.Node)
  (str : string) :
  run h n str x ->
  forall ns ns', eps_closed h ns -> In n ns ->
  match_loop fuel h ns str = Some ns' -> In x ns'.
Proof.
  induction 1 as [n | n e str m He Hv _ IH | n e c str m He Hv _ IH];
    intros ns ns' Hc Hin H.
  - simpl in H. injection H as <-. exact Hin.
  - apply (IH ns ns' Hc); [apply (Hc n Hin e He Hv) | exact H].
  - simpl in H. destruct (step fuel h ns c) as [newNs|] eqn:Es; [|discriminate].
    destruct (step_spec _ _ _ _ _ Es) as [S1 [_ S3]].
    apply (IH newNs ns' S1); [apply (S3 n e Hin He Hv) | exact H].
Qed.

(** [match] with enough fuel returns, and returns [true] exactly for
    the accepted strings. *)
Lemma match_fuel_accepts (fuel : nat) (h : Nfa.Heap) (startNode : Nfa.Node)
  (str : string) :
  length h < fuel ->
  exists b, match_fuel fuel h startNode str = Some b
            /\ (b = true <-> accepts h startNode str).
Proof.
  intros Hf. unfold match_fuel.
  destruct (addNodeToSet_enough fuel h [] startNode) as [ns0 E0];
    [pose proof (unvisited_le h []); lia|].
  rewrite E0.
  destruct (addNodeToSet_added _ _ _ _ _ E0) as [_ [A2 [A3 A4]]].
  assert (Hc0 : eps_closed h ns0)
    by (intros x Hx; apply (A4 x Hx); intros []).
  destruct (match_loop_enough fuel h str Hf ns0) as [ns' E']. rewrite E'.
  eexists. split; [reflexivity|].
  rewrite existsb_exists. split.
  - intros [x [Hx Hz]]. apply Nat.eqb_eq in Hz.
    destruct (match_loop_sound _ _ _ _ _ E' x Hx) as [n [Hn Hr]].
    exists x. split; [|exact Hz].
    destruct (A3 n Hn) as [[] | Hp]. apply (eps_path_run h _ n); assumption.
  - intros [x [Hr Hz]]. exists x. split; [|apply Nat.eqb_eq, Hz].
    apply (match_loop_complete fuel h startNode x str Hr ns0 ns' Hc0 A2 E').
Qed.

(** ** Claims about [match] *)

(** C4.  [match] decides whole-string acceptance: on every arena, hence
    on every automaton built from a parsed pattern, it returns [true]
    exactly when some chain of edges from the start node consumes the
    entire string and ends in a node without outgoing edge.  A prefix
    that reaches such a node does not count: the automaton of [a*]
    rejects "aab", and accepts "aa". *)
Theorem match_whole_string :
  (forall h startNode str,
     exists b, match_ h startNode str = Some b
               /\ (b = true <-> accepts h startNode str))
  /\ run_test "a*" "aab" = Some false
  /\ run_test "a*" "aa" = Some true.
Proof.
  split; [| split; reflexivity].
  intros h startNode str. apply match_fuel_accepts. lia.
Qed.

(** C9.  [match] is total: on every arena, cycles of epsilon edges
    included, and every string it returns, with one unit of fuel per
    node and one more; [addNodeToSet] returns as soon as the fuel
    exceeds the number of nodes not yet in the set, and the set it
    returns holds no node twice. *)
Theorem match_total :
  (forall h startNode str, exists b, match_ h startNode str = Some b)
  /\ (forall fuel h set n,
        unvisited h set < fuel ->
        exists set', addNodeToSet fuel h set n = Some set'
                     /\ (NoDup set -> NoDup set')).
Proof.
  split.
  - intros h startNode str.
    destruct (match_fuel_accepts (S (length h)) h startNode str) as [b [E _]];
      [lia|].
    exists b. exact E.
  - intros fuel h set n Hf.
    destruct (addNodeToSet_enough fuel h set n Hf) as [set' E].
    exists set'. split; [exact E|].
    intros Hnd. apply (addNodeToSet_NoDup fuel h set n set' Hnd E).
Qed.

(** C9 on a self-loop of epsilon edges: node 0 has an epsilon edge to
    itself and one to node 1. *)
Lemma match_total_witness :
  exists set',
    addNodeToSet 3 [[Nfa.mkEdge "" 0; Nfa.mkEdge "" 1]; []] [] 0 = Some set'
    /\ (NoDup (@nil Nfa.Node) -> NoDup set').
Proof.
  apply (proj2 match_total 3 [[Nfa.mkEdge "" 0; Nfa.mkEdge "" 1]; []] [] 0).
  vm_compute. lia.
Defined.

(** ** The test cases of the source *)

(** The three cases of the self-test of [regex.ts]: every string of
    [shouldMatch] is accepted and every string of [shouldFail] is
    rejected. *)
Example source_tests :
  map (run_test "a(b|c)d*") ["acd"; "abd"; "acdddd"; "abdddd"; "ac"; "ab"]
  = repeat (Some true) 6
  /\ map (run_test "a(b|c)d*") ["a"; "bab"; "abc"; ""; "adc"]
     = repeat (Some false) 5
  /\ map (run_test "(|a)") ["a"; ""] = repeat (Some true) 2
  /\ map (run_test "(|a)") ["aa"; "b"] = repeat (Some false) 2
  /\ map (run_test "(|a)(b|c*)")
       ["ab"; "a"; ""; "b"; "cccccc"; "c"; "cc"; "ac"; "accc"]
     = repeat (Some true) 9
  /\ map (run_test "(|a)(b|c*)") ["aa"; "abb"; "abc"; "bc"; "ca"]
     = repeat (Some false) 5.
Proof. repeat split; vm_compute; reflexivity. Qed.

(* ================================================================== *)
(** * Further properties of the code *)

(** ** The scanner and [parse] *)



(** A position that [p] returns is at or after the start, holds a ")",
    and that ")" is the one that closes the scope [p] was entered in. *)
Theorem p_returns_closing (fuel : nat) (s : string) (i : nat)
  (node : option Node) (seq : list Node) (alts : list (list Node))
  (j : nat) (n : Node) :
  p_loop fuel s i node seq alts = Return (j, n) ->
  i <= j /\ charAt s j = Some ")"%char
  /\ close_pos 0 (skip i s) = Some (j - i).
Proof.
  intros H.
  pose proof (p_loop_returns fuel s i node seq alts) as R.
  pose proof (p_loop_close fuel s i node seq alts) as C.
  rewrite H in R, C. tauto.
Qed.

Lemma p_returns_closing_witness :
  1 <= 5 /\ charAt "((a)b)c)" 5 = Some ")"%char
  /\ close_pos 0 (skip 1 "((a)b)c)") = Some (5 - 1).
Proof.
  apply (p_returns_closing 9 "((a)b)c)" 1 None [] [] 5
           (Seq [Atom "a"; Atom "b"])).
  reflexivity.
Defined.

(** [parse] and the parentheses of the pattern: a pattern that parses
    is balanced; 'not everything consumed' is thrown only when some ")"
    closes no group; and a pattern with such a ")" never parses and
    never gives 'termination too early'. *)
Theorem parse_parentheses (q : string) :
  (forall ast, parse q = Return ast -> open_groups 0 q = Some 0)
  /\ (parse q = Throw NotEverythingConsumed -> open_groups 0 q = None)
  /\ (open_groups 0 q = None ->
      parse q = Throw NotEverythingConsumed
      \/ parse q = Throw EmptyParens
      \/ parse q = Throw StarWithoutThing).
Proof.
  pose proof (p_loop_close (S (String.length (q ++ ")"))) (q ++ ")") 0 None [] []) as C.
  pose proof (p_loop_returns (S (String.length (q ++ ")"))) (q ++ ")") 0 None [] []) as R.
  pose proof (p_loop_enough (S (String.length (q ++ ")"))) (q ++ ")") 0 None [] []) as F.
  pose proof (open_groups_close_pos q 0) as G.
  simpl skip in C. unfold parse, parse_fuel, p.
  destruct (p_loop (S (String.length (q ++ ")"))) (q ++ ")") 0 None [] [])
    as [[j n]|e|].
  - rewrite Nat.sub_0_r in C. rewrite length_append. simpl String.length.
    replace (String.length q + 1 - 1) with (String.length q) by lia.
    destruct (j =? String.length q) eqn:Ej; simpl.
    + apply Nat.eqb_eq in Ej. subst j. split; [|split].
      * intros ast _. destruct (open_groups 0 q) as [[|d]|]; [reflexivity | |].
        -- rewrite G in C. discriminate.
        -- destruct G as [j [Hj G]]. rewrite G in C. injection C as C. lia.
      * discriminate.
      * intros E. rewrite E in G. destruct G as [j [Hj G]].
        rewrite G in C. injection C as C. lia.
    + apply Nat.eqb_neq in Ej. split; [discriminate | split].
      * intros _. destruct (open_groups 0 q) as [[|d]|]; [| | reflexivity].
        -- rewrite G in C. injection C as C. congruence.
        -- rewrite G in C. discriminate.
      * intros _. left. reflexivity.
  - split; [discriminate | split].
    + intros E. injection E as ->. exfalso. apply R. reflexivity.
    + intros E. rewrite E in G. destruct G as [j [Hj G]].
      destruct e; auto.
      * rewrite G in C. discriminate.
  - exfalso. apply F; [lia | reflexivity].
Qed.

Lemma parse_parentheses_witness :
  open_groups 0 "a(b|c)d*" = Some 0
  /\ open_groups 0 "a)b" = None
  /\ (parse "a)b" = Throw NotEverythingConsumed
      \/ parse "a)b" = Throw EmptyParens
      \/ parse "a)b" = Throw StarWithoutThing).
Proof.
  split; [| split].
  - apply (proj1 (parse_parentheses "a(b|c)d*")
             (Seq [Atom "a"; Alt [Atom "b"; Atom "c"]; Star (Atom "d")])).
    reflexivity.
  - apply (proj1 (proj2 (parse_parentheses "a)b"))). reflexivity.
  - apply (proj2 (proj2 (parse_parentheses "a)b"))). reflexivity.
Defined.

Lemma parsed_shape_map_Seq (l : list (list Node)) :
  forallb parsed_shape (map Seq l) = forallb (forallb parsed_shape) l.
Proof.
  induction l as [|x l IH]; simpl; [reflexivity | rewrite IH; reflexivity].
Qed.

Lemma parsed_shape_Alt (v : list Node) :
  parsed_shape (Alt v) = (2 <=? length v) && forallb parsed_shape v.
Proof. reflexivity. Qed.

Lemma p_loop_parsed_shape (fuel : nat) : forall s i node seq alts,
  (forall n, node = Some n -> parsed_shape n = true) ->
  forallb parsed_shape seq = true ->
  forallb (forallb parsed_shape) alts = true ->
  match p_loop fuel s i node seq alts with
  | Return (_, n) => parsed_shape n = true
  | _ => True
  end.
Proof.
  induction fuel as [|fuel IH]; intros s i node seq alts Hn Hs Ha; [exact I|].
  rewrite p_loop_S.
  destruct (charAt s i) as [c|] eqn:Ec; [|exact I].
  char_cases c.
  - pose proof (IH s (i + 1) None [] []) as H1.
    destruct (p_loop fuel s (i + 1) None [] []) as [[i' node']| |]; auto.
    assert (H1' : parsed_shape node' = true)
      by (apply H1; [discriminate | reflexivity | reflexivity]).
    apply IH.
    + intros n E. injection E as <-. exact H1'.
    + rewrite forallb_app, Hs. simpl. rewrite H1'. reflexivity.
    + exact Ha.
  - destruct (1 <? length (alts ++ [seq])) eqn:El.
    + apply Nat.ltb_lt in El.
      rewrite parsed_shape_Alt, length_map, parsed_shape_map_Seq, forallb_app.
      replace (2 <=? length (alts ++ [seq])) with true
        by (symmetry; apply Nat.leb_le; lia).
      simpl. rewrite Ha, Hs. reflexivity.
    + destruct (1 <? length seq); [exact Hs|].
      destruct node as [n|]; [apply Hn; reflexivity | exact I].
  - destruct node as [n|]; [|exact I].
    assert (Hn' : parsed_shape (Star n) = true) by (simpl; apply Hn; reflexivity).
    apply IH.
    + intros n' E. injection E as <-. exact Hn'.
    + apply forallb_set_last; assumption.
    + exact Ha.
  - apply IH; [exact Hn | reflexivity|].
    rewrite forallb_app, Ha. simpl. rewrite Hs. reflexivity.
  - assert (Hc : parsed_shape (Atom (String c "")) = true).
    { simpl. unfold special. rewrite Eopen, Eclose, Estar, Ebar. reflexivity. }
    apply IH.
    + intros n' E. injection E as <-. exact Hc.
    + rewrite forallb_app, Hs.
      change (forallb parsed_shape [Atom (String c "")])
        with (parsed_shape (Atom (String c "")) && true).
      rewrite Hc. reflexivity.
    + exact Ha.
Qed.

Lemma simplify_parsed_shape (n : Node) :
  parsed_shape n = true -> parsed_shape (simplify n) = true.
Proof.
  induction n as [a | v IH | v IH | c IH] using Node_nested_ind; intros H.
  - exact H.
  - rewrite simplify_Seq_children. simpl in H.
    assert (Hall : forallb parsed_shape (map simplify v) = true).
    { induction IH as [|c v Hc _ IHv]; simpl in *; [reflexivity|].
      apply andb_prop in H. destruct H as [H1 H2].
      rewrite (Hc H1), (IHv H2). reflexivity. }
    destruct (map simplify v) as [|r1 [|r2 newV]]; [reflexivity | | exact Hall].
    simpl in Hall. rewrite andb_true_r in Hall. exact Hall.
  - rewrite simplify_Alt. rewrite parsed_shape_Alt in *. apply andb_prop in H.
    destruct H as [Hlen H]. rewrite length_map, Hlen. simpl. clear Hlen.
    induction IH as [|c v Hc _ IHv]; simpl in *; [reflexivity|].
    apply andb_prop in H. destruct H as [H1 H2].
    rewrite (Hc H1), IHv; auto.
  - rewrite simplify_Star. simpl in H. specialize (IH H).
    destruct (simplify c); simpl in *; auto.
Qed.

(** Every tree that [parse] returns is simplified, its atoms hold the
    empty string or one character that is none of "(", ")", "*", "|",
    and each of its alternations has at least two alternatives. *)
Theorem parse_tree_shape (q : string) (ast : Node) :
  parse q = Return ast ->
  simplified ast = true /\ parsed_shape ast = true.
Proof.
  unfold parse, parse_fuel, p.
  pose proof (p_loop_parsed_shape (S (String.length (q ++ ")"))) (q ++ ")") 0
                None [] []) as H.
  destruct (p_loop (S (String.length (q ++ ")"))) (q ++ ")") 0 None [] [])
    as [[j n]| |]; try discriminate.
  destruct (negb _); [discriminate|]. intros E. injection E as <-.
  split; [apply simplify_simplified|].
  apply simplify_parsed_shape, H; [discriminate | reflexivity | reflexivity].
Qed.

Lemma parse_tree_shape_witness :
  simplified (Alt [Atom ""; Seq [Atom "a"; Star (Atom "b")]]) = true
  /\ parsed_shape (Alt [Atom ""; Seq [Atom "a"; Star (Atom "b")]]) = true.
Proof.
  apply (parse_tree_shape "|ab*"). reflexivity.
Defined.

(** ** Patterns without special character *)

Lemma last_cons {A : Type} (l : list A) : forall a d,
  last (a :: l) d = last l a.
Proof.
  induction l as [|b l IH]; intros a d; [reflexivity|].
  change (last (a :: b :: l) d) with (last (b :: l) d).
  rewrite IH. symmetry. apply IH.
Qed.

Lemma plain_not_special (c : ascii) :
  special c = false ->
  Ascii.eqb c "(" = false /\ Ascii.eqb c ")" = false
  /\ Ascii.eqb c "*" = false /\ Ascii.eqb c "|" = false.
Proof.
  unfold special. intros H.
  destruct (Ascii.eqb c "("); [discriminate|].
  destruct (Ascii.eqb c ")"); [discriminate|].
  destruct (Ascii.eqb c "*"); [discriminate|].
  destruct (Ascii.eqb c "|"); [discriminate|]. auto.
Qed.

(** The scan of plain characters only appends atoms. *)
Lemma p_loop_plain (q : string) : forall fuel n seq,
  plain q = true -> String.length q < fuel ->
  p_loop fuel (q ++ ")") 0 (Some n) seq []
  = Return (String.length q, finish (last (atoms_of q) n) (seq ++ atoms_of q)).
Proof.
  induction q as [|c q IH]; intros fuel n seq Hp Hf;
    (destruct fuel as [|fuel]; [simpl in Hf; lia|]).
  - rewrite p_loop_S. simpl. rewrite app_nil_r. unfold finish.
    destruct (1 <? length seq); reflexivity.
  - simpl in Hp. apply andb_prop in Hp. destruct Hp as [Hc Hq].
    apply negb_true_iff in Hc.
    destruct (plain_not_special c Hc) as [E1 [E2 [E3 E4]]].
    rewrite p_loop_S.
    change (charAt (String c q ++ ")")%string 0) with (Some c).
    cbv beta iota. rewrite E1, E2, E3, E4.
    change ((String c q ++ ")")%string) with (String c (q ++ ")")).
    change (0 + 1) with 1. rewrite p_loop_shift.
    rewrite IH; [| exact Hq | simpl in Hf; lia].
    simpl shift. simpl String.length. simpl atoms_of.
    rewrite last_cons, <- app_assoc. reflexivity.
Qed.

Lemma atoms_of_simplified (q : string) :
  forallb simplified (atoms_of q) = true.
Proof. induction q as [|c q IH]; simpl; auto. Qed.

Lemma atoms_of_length (q : string) : length (atoms_of q) = String.length q.
Proof. induction q as [|c q IH]; simpl; auto. Qed.

Lemma parse_plain_tree (c : ascii) (q : string) :
  plain (String c q) = true ->
  parse (String c q)
  = Return (match q with
            | EmptyString => Atom (String c "")
            | String _ _ => Seq (atoms_of (String c q))
            end).
Proof.
  intros Hp. pose proof Hp as Hp'. simpl in Hp'. apply andb_prop in Hp'.
  destruct Hp' as [Hc Hq]. apply negb_true_iff in Hc.
  destruct (plain_not_special c Hc) as [E1 [E2 [E3 E4]]].
  unfold parse, parse_fuel, p.
  change ((String c q ++ ")")%string) with (String c (q ++ ")")).
  change (String.length (String c (q ++ ")"))) with (S (String.length (q ++ ")"))).
  rewrite p_loop_S. change (charAt (String c (q ++ ")")) 0) with (Some c).
  cbv beta iota. rewrite E1, E2, E3, E4. change (0 + 1) with 1.
  rewrite p_loop_shift.
  rewrite p_loop_plain; [| exact Hq | rewrite length_append; simpl; lia].
  simpl shift. cbv iota. rewrite length_append. simpl String.length.
  replace (S (String.length q + 1) - 1) with (S (String.length q)) by lia.
  rewrite Nat.eqb_refl. simpl negb. cbv iota. f_equal.
  destruct q as [|c' q].
  - reflexivity.
  - unfold finish. simpl app. simpl length. simpl Nat.ltb.
    apply simplify_fixed. simpl. apply atoms_of_simplified.
Qed.

(** A pattern made of plain characters parses to the atom of its
    character when it has one, and to the sequence of the atoms of its
    characters when it has more. *)
Theorem parse_plain (c : ascii) (q : string) :
  plain (String c q) = true ->
  parse (String c q)
  = Return (match q with
            | EmptyString => Atom (String c "")
            | String _ _ => Seq (atoms_of (String c q))
            end).
Proof.
  intros Hp. rewrite (parse_plain_tree c q Hp). reflexivity.
Qed.

Lemma parse_plain_witness :
  parse "abc" = Return (Seq (atoms_of "abc")).
Proof.
  apply (parse_plain "a" "bc"). reflexivity.
Defined.

(** ** [simplify] *)

(** The trees that [simplify] leaves as they are are exactly the
    simplified ones, and [simplify] never returns a larger tree. *)
Theorem simplify_fixed_points (t : Node) :
  (simplify t = t <-> simplified t = true)
  /\ size (simplify t) <= size t.
Proof.
  split; [| apply simplify_size]. split.
  - intros E. rewrite <- E. apply simplify_simplified.
  - apply simplify_fixed.
Qed.

(** ** [zip] and the loop of the [seq] branch *)

Lemma zip_length {T U : Type} (seq1 : list T) : forall (seq2 : list U),
  length (zip seq1 seq2) = Nat.min (length seq1) (length seq2).
Proof.
  induction seq1 as [|x seq1 IH]; intros [|y seq2]; simpl; auto.
Qed.

Lemma zip_nth_error {T U : Type} (seq1 : list T) : forall (seq2 : list U) i,
  nth_error (zip seq1 seq2) i =
  match nth_error seq1 i, nth_error seq2 i with
  | Some x, Some y => Some (x, y)
  | _, _ => None
  end.
Proof.
  induction seq1 as [|x seq1 IH]; intros [|y seq2] [|i]; simpl; auto.
  - destruct (nth_error seq1 i); reflexivity.
Qed.

(** [zip] yields as many pairs as the shorter array has elements, the
    [i]-th pair holding the [i]-th elements; and the walk over the
    children in [makeEdge] is the source's loop over
    [zip(ast.v, nextNodes)] that calls [makeEdge] and moves [last]. *)
Theorem zip_loop :
  (forall (T U : Type) (seq1 : list T) (seq2 : list U),
     length (zip seq1 seq2) = Nat.min (length seq1) (length seq2)
     /\ forall i, nth_error (zip seq1 seq2) i =
                  match nth_error seq1 i, nth_error seq2 i with
                  | Some x, Some y => Some (x, y)
                  | _, _ => None
                  end)
  /\ (forall mk cs nexts last h,
       walk mk cs nexts last h = snd (seq_loop mk (zip cs nexts) last h)).
Proof.
  split.
  - intros T U seq1 seq2. split; [apply zip_length | apply zip_nth_error].
  - intros mk cs. unfold seq_loop.
    induction cs as [|c cs IH]; intros [|next nexts] last h; simpl; auto.
Qed.

(** ** The arena that [makeEdge] builds *)

Lemma walk_length (cs : list Node) :
  Forall (fun c => forall h s e,
            length (makeEdge c s e h) = length h + states c) cs ->
  forall nexts last h, length cs <= length nexts ->
  length (walk makeEdge cs nexts last h) = length h + list_sum (map states cs).
Proof.
  induction 1 as [|c cs Hc _ IH]; intros nexts last h Hl; simpl; [lia|].
  destruct nexts as [|next nexts]; [simpl in Hl; lia|].
  rewrite IH by (simpl in Hl; lia). rewrite Hc. lia.
Qed.

Lemma makeEdge_length (ast : Node) : forall h s e,
  length (makeEdge ast s e h) = length h + states ast.
Proof.
  induction ast as [a | v IH | v IH | c IH] using Node_nested_ind;
    intros h s e.
  - simpl. rewrite push_length. lia.
  - simpl makeEdge. rewrite newNodes_spec.
    rewrite walk_length; [| exact IH |].
    + rewrite length_app, repeat_length. simpl. lia.
    + rewrite length_app, length_seq. simpl. lia.
  - simpl. revert h. induction IH as [|c v Hc _ IHv]; intros h; simpl; [lia|].
    rewrite IHv, Hc. lia.
  - simpl. rewrite push_length, IH, push_length, length_app. simpl. lia.
Qed.

(** [makeNfa] allocates the start node, the end node, one node per
    star and one node between two consecutive children of a sequence,
    and nothing else. *)
Theorem makeNfa_states (ast : Node) :
  length (snd (makeNfa ast)) = 2 + states ast
  /\ fst (makeNfa ast) = 0.
Proof.
  unfold makeNfa. simpl. rewrite makeEdge_length. split; reflexivity.
Qed.

(** A call [makeEdge(ast, start, end)] on two nodes of the arena never
    removes or reorders an edge, and among the nodes that existed before
    the call only [start] receives edges. *)
Theorem makeEdge_frame (ast : Node) (h : Nfa.Heap) (start end_ : Nfa.Node) :
  start < length h -> end_ < length h ->
  (forall m, exists extra,
     Nfa.ds (makeEdge ast start end_ h) m = Nfa.ds h m ++ extra)
  /\ (forall m, m < length h -> m <> start ->
      Nfa.ds (makeEdge ast start end_ h) m = Nfa.ds h m).
Proof.
  intros Hs He.
  destruct (makeEdge_all_ok ast h start end_ Hs He) as [[_ [M U]] _].
  split; [exact M|]. intros m Hm Hne. apply U; [exact Hm|].
  intros [E|[]]. apply Hne. symmetry. exact E.
Qed.

Lemma makeEdge_frame_witness :
  (forall m, exists extra,
     Nfa.ds (makeEdge (Star (Atom "a")) 0 1 [[]; [Nfa.mkEdge "b" 0]]) m
     = Nfa.ds [[]; [Nfa.mkEdge "b" 0]] m ++ extra)
  /\ (forall m, m < length [[]; [Nfa.mkEdge "b" 0]] -> m <> 0 ->
      Nfa.ds (makeEdge (Star (Atom "a")) 0 1 [[]; [Nfa.mkEdge "b" 0]]) m
      = Nfa.ds [[]; [Nfa.mkEdge "b" 0]] m).
Proof.
  apply (makeEdge_frame (Star (Atom "a")) [[]; [Nfa.mkEdge "b" 0]] 0 1);
    simpl; lia.
Defined.

(** ** [addNodeToSet] and the fuel of [match] *)





(** The result of [match] does not depend on the fuel once there is
    more of it than nodes in the arena. *)
Theorem match_fuel_independent (fuel1 fuel2 : nat) (h : Nfa.Heap)
  (startNode : Nfa.Node) (str : string) :
  length h < fuel1 -> length h < fuel2 ->
  match_fuel fuel1 h startNode str = match_fuel fuel2 h startNode str
  /\ match_fuel fuel1 h startNode str = match_ h startNode str.
Proof.
  intros H1 H2.
  destruct (match_fuel_accepts fuel1 h startNode str H1) as [b1 [E1 A1]].
  destruct (match_fuel_accepts fuel2 h startNode str H2) as [b2 [E2 A2]].
  destruct (match_fuel_accepts (S (length h)) h startNode str (le_n _))
    as [b3 [E3 A3]].
  unfold match_. rewrite E1, E2, E3.
  assert (b1 = b2) by (destruct b1, b2; intuition congruence).
  assert (b1 = b3) by (destruct b1, b3; intuition congruence).
  subst. auto.
Qed.

Lemma match_fuel_independent_witness :
  match_fuel 5 [[Nfa.mkEdge "" 0; Nfa.mkEdge "a" 1]; []] 0 "a"
  = match_fuel 9 [[Nfa.mkEdge "" 0; Nfa.mkEdge "a" 1]; []] 0 "a"
  /\ match_fuel 5 [[Nfa.mkEdge "" 0; Nfa.mkEdge "a" 1]; []] 0 "a"
     = match_ [[Nfa.mkEdge "" 0; Nfa.mkEdge "a" 1]; []] 0 "a".
Proof.
  apply (match_fuel_independent 5 9); simpl; lia.
Defined.

(** ** Edges added between two arenas *)

Lemma str_app_nil_r (w : string) : (w ++ "")%string = w.
Proof. induction w as [|c w IH]; simpl; [reflexivity | rewrite IH; reflexivity]. Qed.

Lemma str_app_assoc (a b c : string) :
  ((a ++ b) ++ c)%string = (a ++ (b ++ c))%string.
Proof. induction a as [|x a IH]; simpl; [reflexivity | rewrite IH; reflexivity]. Qed.

Lemma Edge_eq_dec (x y : Nfa.Edge) : {x = y} + {x <> y}.
Proof. decide equality; [apply Nat.eq_dec | apply string_dec]. Qed.

Lemma enew_split (h h1 h2 : Nfa.Heap) (n : Nfa.Node) (x : Nfa.Edge) :
  enew h h2 n x -> enew h h1 n x \/ enew h1 h2 n x.
Proof.
  intros [H1 H2]. destruct (in_dec Edge_eq_dec x (Nfa.ds h1 n)) as [Hin|Hnin].
  - left. split; assumption.
  - right. split; assumption.
Qed.

Lemma ds_overflow (h : Nfa.Heap) (n : Nfa.Node) :
  length h <= n -> Nfa.ds h n = [].
Proof. intros H. unfold Nfa.ds. apply nth_overflow, H. Qed.

Lemma enew_source (starts : list Nfa.Node) (h h' : Nfa.Heap) (n : Nfa.Node)
  (x : Nfa.Edge) :
  grows starts h h' -> enew h h' n x -> In n starts \/ fresh h h' n.
Proof.
  intros [L [_ U]] [H1 H2].
  destruct (Nat.lt_ge_cases n (length h)) as [Hlt|Hge].
  - destruct (in_dec Nat.eq_dec n starts) as [Hin|Hnin]; [left; exact Hin|].
    rewrite (U n Hlt Hnin) in H1. contradiction.
  - right. split; [exact Hge|].
    destruct (Nat.lt_ge_cases n (length h')) as [Hlt'|Hge']; [exact Hlt'|].
    rewrite (ds_overflow h' n Hge') in H1. contradiction.
Qed.

Lemma enew_push (s : Nfa.Node) (x0 x : Nfa.Edge) (h : Nfa.Heap) (n : Nfa.Node) :
  s < length h -> enew h (Nfa.push s x0 h) n x -> n = s /\ x = x0.
Proof.
  intros Hs [H1 H2]. destruct (Nat.eq_dec n s) as [->|Hn].
  - rewrite ds_push_same in H1 by exact Hs. apply in_app_or in H1.
    destruct H1 as [H1|[H1|[]]]; [contradiction | auto].
  - rewrite ds_push_other in H1 by exact Hn. contradiction.
Qed.

Lemma enew_alloc_l (h h' : Nfa.Heap) (k : nat) (n : Nfa.Node) (x : Nfa.Edge) :
  enew h h' n x -> enew (h ++ repeat [] k) h' n x.
Proof. intros [H1 H2]. split; [exact H1 | rewrite ds_alloc; exact H2]. Qed.

(** ** Chains of edges *)

Section Chains.
Variables E E1 : Nfa.Node -> Nfa.Edge -> Prop.
Variables I I1 : Nfa.Node -> Prop.

Lemma lrun_pos (k : nat) (a : Nfa.Node) (w : string) (z : Nfa.Node) :
  lrun E I k a w z -> 1 <= k.
Proof. destruct 1; lia. Qed.

Lemma lrun_weaken :
  (forall n x, E n x -> E1 n x) -> (forall n, I n -> I1 n) ->
  forall k a w z, lrun E I k a w z -> lrun E1 I1 k a w z.
Proof.
  intros HE HI. induction 1 as [n x Hx Hu | k n x w z Hx Hu Hi _ IH].
  - apply lrun_one; auto.
  - apply lrun_step; auto.
Qed.

(** A chain that starts in [Src] or [Rg], where all edges are edges of
    [E1] and lead back into [Rg], is a chain of [E1]. *)
Lemma lrun_confine (Src Rg : Nfa.Node -> Prop) :
  (forall n x, Src n \/ Rg n -> E n x -> E1 n x) ->
  (forall n x, E1 n x -> I (Nfa.t x) -> Rg (Nfa.t x)) ->
  (forall n, Rg n -> I1 n) ->
  forall k a w z, lrun E I k a w z -> Src a \/ Rg a -> lrun E1 I1 k a w z.
Proof.
  intros H1 H2 H3. induction 1 as [n x Hx Hu | k n x w z Hx Hu Hi _ IH];
    intros Ha.
  - apply lrun_one; auto.
  - pose proof (H1 n x Ha Hx) as Hx1.
    pose proof (H2 n x Hx1 Hi) as Hr.
    apply lrun_step; auto.
Qed.

(** A chain that starts in the region [Rg] of a fragment and ends
    outside leaves the fragment through its exit node [tgt]: it splits
    into a chain of the fragment up to [tgt] and the rest. *)
Lemma lrun_exit (Rg : Nfa.Node -> Prop) (tgt : Nfa.Node) :
  (forall n x, Rg n -> E n x -> E1 n x) ->
  (forall n x, E1 n x -> Nfa.t x = tgt \/ Rg (Nfa.t x)) ->
  (forall n, Rg n -> I1 n) ->
  forall k a w z, lrun E I k a w z -> Rg a -> ~ Rg z ->
  exists k1 w1,
    lrun E1 I1 k1 a w1 tgt
    /\ ((k = k1 /\ w = w1 /\ z = tgt)
        \/ exists k2 w2, k = k1 + k2 /\ w = (w1 ++ w2)%string
                          /\ lrun E I k2 tgt w2 z).
Proof.
  intros H1 H2 H3. induction 1 as [n x Hx Hu | k n x w z Hx Hu Hi Hr IH];
    intros Ha Hz.
  - pose proof (H1 n x Ha Hx) as Hx1.
    destruct (H2 n x Hx1) as [Ht|Ht]; [|contradiction].
    exists 1, (Nfa.v x). split; [rewrite <- Ht; apply lrun_one; auto|].
    left. auto.
  - pose proof (H1 n x Ha Hx) as Hx1.
    destruct (H2 n x Hx1) as [Ht|Ht].
    + exists 1, (Nfa.v x). split; [rewrite <- Ht; apply lrun_one; auto|].
      right. exists k, w. rewrite <- Ht. auto.
    + destruct (IH Ht Hz) as [k1 [w1 [R1 Hrest]]].
      exists (S k1), (Nfa.v x ++ w1)%string. split.
      * apply lrun_step; auto.
      * destruct Hrest as [[-> [-> ->]] | [k2 [w2 [-> [-> R2]]]]].
        -- left. auto.
        -- right. exists k2, w2. rewrite str_app_assoc. auto.
Qed.

(** The same after a first edge of the fragment. *)
Lemma lrun_exit_step (Rg : Nfa.Node -> Prop) (tgt : Nfa.Node) :
  (forall n x, Rg n -> E n x -> E1 n x) ->
  (forall n x, E1 n x -> Nfa.t x = tgt \/ Rg (Nfa.t x)) ->
  (forall n, Rg n -> I1 n) ->
  forall a y k w z, E1 a y -> usable y ->
  lrun E I k (Nfa.t y) w z -> ~ Rg z ->
  exists k1 w1,
    lrun E1 I1 k1 a w1 tgt
    /\ ((S k = k1 /\ (Nfa.v y ++ w)%string = w1 /\ z = tgt)
        \/ exists k2 w2, S k = k1 + k2 /\ 1 <= k1
                          /\ (Nfa.v y ++ w)%string = (w1 ++ w2)%string
                          /\ lrun E I k2 tgt w2 z).
Proof.
  intros H1 H2 H3 a y k w z Hy Hu Hr Hz.
  destruct (H2 a y Hy) as [Ht|Ht].
  - exists 1, (Nfa.v y). split; [rewrite <- Ht; apply lrun_one; auto|].
    right. exists k, w. rewrite <- Ht. auto.
  - destruct (lrun_exit Rg tgt H1 H2 H3 k _ w z Hr Ht Hz)
      as [k1 [w1 [R1 Hrest]]].
    exists (S k1), (Nfa.v y ++ w1)%string. split.
    + apply lrun_step; auto.
    + destruct Hrest as [[-> [-> ->]] | [k2 [w2 [-> [-> R2]]]]].
      * left. auto.
      * right. exists k2, w2. rewrite str_app_assoc.
        split; [reflexivity | split; [lia | auto]].
Qed.

End Chains.

Lemma lrun_inv (E : Nfa.Node -> Nfa.Edge -> Prop) (I : Nfa.Node -> Prop)
  (k : nat) (a : Nfa.Node) (w : string) (z : Nfa.Node) :
  lrun E I k a w z ->
  exists x, E a x /\ usable x
    /\ ((k = 1 /\ w = Nfa.v x /\ z = Nfa.t x)
        \/ exists k' w', k = S k' /\ w = (Nfa.v x ++ w')%string
                          /\ I (Nfa.t x) /\ lrun E I k' (Nfa.t x) w' z).
Proof.
  destruct 1 as [n x Hx Hu | k n x w z Hx Hu Hi Hr]; exists x.
  - split; [exact Hx | split; [exact Hu|]]. left. auto.
  - split; [exact Hx | split; [exact Hu|]]. right. exists k, w. auto.
Qed.

Lemma all_makeEdge_ok (v : list Node) : Forall makeEdge_ok v.
Proof. apply Forall_forall. intros c _. apply makeEdge_all_ok. Qed.

(** ** Soundness of [makeEdge]: chains of added edges spell words *)

Lemma makeEdge_sound_Atom (a : string) : makeEdge_sound (Atom a).
Proof.
  intros h s e Hs He. simpl makeEdge. split.
  - intros n x Hx. destruct (enew_push _ _ _ _ _ Hs Hx) as [_ ->].
    left. reflexivity.
  - intros k w Hr.
    destruct (lrun_inv _ _ _ _ _ _ Hr) as [x [Hx [Hu Hcase]]].
    destruct (enew_push _ _ _ _ _ Hs Hx) as [_ ->].
    unfold usable in Hu. simpl in Hu, Hcase.
    destruct Hcase as [[_ [-> _]] | [k' [w' [_ [_ [Hi _]]]]]].
    + simpl. auto.
    + lia.
Qed.

Lemma enew_Star (c : Node) (h : Nfa.Heap) (s e n : Nfa.Node) (x : Nfa.Edge) :
  s < length h ->
  enew h (makeEdge (Star c) s e h) n x ->
  (n = s /\ x = Nfa.mkEdge "" (length h))
  \/ enew (Nfa.push s (Nfa.mkEdge "" (length h)) (h ++ [[]]))
          (makeEdge c (length h) (length h)
             (Nfa.push s (Nfa.mkEdge "" (length h)) (h ++ [[]]))) n x
  \/ (n = length h /\ x = Nfa.mkEdge "" e).
Proof.
  intros Hs H. simpl makeEdge in H.
  destruct (enew_split h (Nfa.push s (Nfa.mkEdge "" (length h)) (h ++ [[]]))
              _ n x H) as [H1|H1].
  - left. apply (enew_alloc_l h _ 1 n x) in H1. simpl repeat in H1.
    apply enew_push in H1; [exact H1|]. rewrite length_app. simpl. lia.
  - destruct (enew_split _ (makeEdge c (length h) (length h)
              (Nfa.push s (Nfa.mkEdge "" (length h)) (h ++ [[]]))) _ n x H1)
      as [H2|H2].
    + right. left. exact H2.
    + right. right. apply enew_push in H2; [exact H2|].
      rewrite makeEdge_length, push_length, length_app. simpl. lia.
Qed.

Lemma makeEdge_sound_Star (c : Node) :
  makeEdge_sound c -> makeEdge_sound (Star c).
Proof.
  intros IH h s e Hs He.
  pose proof (fun n x => enew_Star c h s e n x Hs) as Hclass.
  assert (L' : length (makeEdge (Star c) s e h) = S (length h) + states c).
  { rewrite makeEdge_length. simpl. lia. }
  remember (makeEdge (Star c) s e h) as h' eqn:Eh'.
  remember (Nfa.push s (Nfa.mkEdge "" (length h)) (h ++ [[]])) as h2 eqn:Eh2.
  assert (L2 : length h2 = S (length h)).
  { rewrite Eh2, push_length, length_app. simpl. lia. }
  destruct (IH h2 (length h) (length h)) as [Tc Lc]; try lia.
  destruct (makeEdge_all_ok c h2 (length h) (length h)) as [Gc _]; try lia.
  remember (makeEdge c (length h) (length h) h2) as h3 eqn:Eh3.
  assert (L3 : length h3 = S (length h) + states c).
  { rewrite Eh3, makeEdge_length. lia. }
  assert (Srcc : forall n x, enew h2 h3 n x -> n = length h \/ fresh h2 h3 n).
  { intros n x Hx. destruct (enew_source _ _ _ _ _ Gc Hx) as [[<-|[]]|Hf]; auto. }
  split.
  - intros n x Hx. destruct (Hclass n x Hx) as [[_ ->] | [Hc | [_ ->]]].
    + right. simpl. unfold fresh. lia.
    + destruct (Tc n x Hc) as [Ht | [Ha Hb]]; right; unfold fresh; lia.
    + left. reflexivity.
  - assert (Hloop : forall k w,
      lrun (enew h h') (fun n => length h <= n) k (length h) w e ->
      star (lang c) w).
    { induction k as [k IHk] using lt_wf_ind. intros w Hr.
      destruct (lrun_inv _ _ _ _ _ _ Hr) as [y [Hy [Hu Hcase]]].
      destruct (Hclass _ y Hy) as [[Hms _] | [Hc | [_ ->]]].
      - lia.
      - destruct Hcase as [[_ [_ Hz]] | [k' [w' [-> [-> [Hi Hrest]]]]]].
        + destruct (Tc _ y Hc) as [Ht | [Ha Hb]]; lia.
        + destruct (lrun_exit_step (enew h h') (enew h2 h3)
                      (fun n => length h <= n) (fun n => length h2 <= n)
                      (fresh h2 h3) (length h)) with (a := length h) (y := y)
                      (k := k') (w := w') (z := e)
            as [k1 [w1 [R1 Hsplit]]]; auto.
          * intros n x [Ha Hb] Hx.
            destruct (Hclass n x Hx) as [[Hn _] | [Hc' | [Hn _]]];
              [lia | exact Hc' | lia].
          * intros n [Ha Hb]. exact Ha.
          * unfold fresh. lia.
          * pose proof (Lc k1 w1 R1) as Hw1.
            destruct Hsplit as [[_ [_ Hz]] | [k2 [w2 [Hk [Hk1 [Hw R2]]]]]];
              [lia|].
            rewrite Hw. apply star_app; [exact Hw1|].
            apply (IHk k2); [lia | exact R2].
      - destruct Hcase as [[_ [-> _]] | [k' [w' [_ [_ [Hi _]]]]]].
        + apply star_nil.
        + simpl in Hi. lia. }
    intros k w Hr.
    destruct (lrun_inv _ _ _ _ _ _ Hr) as [x [Hx [Hu Hcase]]].
    destruct (Hclass _ x Hx) as [[_ ->] | [Hc | [Hms _]]].
    + destruct Hcase as [[_ [_ Hz]] | [k' [w' [_ [-> [_ Hrest]]]]]].
      * simpl in Hz. lia.
      * simpl. apply (Hloop k' w' Hrest).
    + destruct (Srcc _ _ Hc) as [Hm | [Ha Hb]]; lia.
    + lia.
Qed.

Lemma fold_makeEdge_sound (v : list Node) :
  Forall makeEdge_sound v ->
  forall h s e, s < length h -> e < length h ->
  (forall n x, enew h (fold_left (fun h n => makeEdge n s e h) v h) n x ->
     Nfa.t x = e
     \/ fresh h (fold_left (fun h n => makeEdge n s e h) v h) (Nfa.t x))
  /\ (forall k w,
       lrun (enew h (fold_left (fun h n => makeEdge n s e h) v h))
         (fun n => length h <= n) k s w e ->
       any_of (map lang v) w).
Proof.
  induction 1 as [|c v Hc _ IH]; intros h s e Hs He.
  - simpl. split.
    + intros n x [H1 H2]. contradiction.
    + intros k w Hr.
      destruct (lrun_inv _ _ _ _ _ _ Hr) as [x [[H1 H2] _]]. contradiction.
  - simpl fold_left.
    destruct (makeEdge_all_ok c h s e Hs He) as [G1 _].
    pose proof (grows_length _ _ _ G1) as L1.
    destruct (Hc h s e Hs He) as [Tc Lc].
    remember (makeEdge c s e h) as h1 eqn:Eh1.
    destruct (fold_makeEdge_ok v (all_makeEdge_ok v) h1 s e) as [G2 _];
      try lia.
    pose proof (grows_length _ _ _ G2) as L2.
    destruct (IH h1 s e) as [Tv Lv]; try lia.
    remember (fold_left (fun h n => makeEdge n s e h) v h1) as h' eqn:Eh'.
    assert (Src1 : forall n x, enew h h1 n x -> n = s \/ fresh h h1 n).
    { intros n x Hx. destruct (enew_source _ _ _ _ _ G1 Hx) as [[<-|[]]|Hf]; auto. }
    assert (Src2 : forall n x, enew h1 h' n x -> n = s \/ fresh h1 h' n).
    { intros n x Hx. destruct (enew_source _ _ _ _ _ G2 Hx) as [[<-|[]]|Hf]; auto. }
    split.
    + intros n x Hx. destruct (enew_split h h1 h' n x Hx) as [H1|H1].
      * destruct (Tc n x H1) as [Ht | [Ha Hb]]; [left; exact Ht|].
        right. unfold fresh. lia.
      * destruct (Tv n x H1) as [Ht | [Ha Hb]]; [left; exact Ht|].
        right. unfold fresh. lia.
    + intros k w Hr.
      destruct (lrun_inv _ _ _ _ _ _ Hr) as [x [Hx [Hu Hcase]]].
      destruct (enew_split h h1 h' s x Hx) as [H1|H1].
      * exists (lang c). split; [left; reflexivity|]. apply (Lc k w).
        destruct Hcase as [[-> [-> ->]] | [k' [w' [-> [-> [Hi Hrest]]]]]].
        -- apply lrun_one; assumption.
        -- apply lrun_step; auto.
           apply (lrun_confine (enew h h') (enew h h1) (fun n => length h <= n)
                    (fun n => length h <= n) (fun _ => False) (fresh h h1));
             auto.
           ++ intros n y [[]|[Ha Hb]] Hy.
              destruct (enew_split h h1 h' n y Hy) as [Hy1|Hy2]; [exact Hy1|].
              destruct (Src2 n y Hy2) as [Hn | [Hc1 Hc2]]; lia.
           ++ intros n y Hy Hi'. destruct (Tc n y Hy) as [Ht | Hf]; [lia | exact Hf].
           ++ intros n [Ha Hb]. exact Ha.
           ++ right. destruct (Tc s x H1) as [Ht | Hf]; [lia | exact Hf].
      * destruct (Lv k w) as [L [HL Hw]].
        -- destruct Hcase as [[-> [-> ->]] | [k' [w' [-> [-> [Hi Hrest]]]]]].
           ++ apply lrun_one; assumption.
           ++ assert (Hfx : fresh h1 h' (Nfa.t x))
                by (destruct (Tv s x H1) as [Ht | Hf]; [lia | exact Hf]).
              apply lrun_step; auto; [destruct Hfx; lia|].
              apply (lrun_confine (enew h h') (enew h1 h')
                       (fun n => length h <= n) (fun n => length h1 <= n)
                       (fun _ => False) (fresh h1 h')); auto.
              ** intros n y [[]|[Ha Hb]] Hy.
                 destruct (enew_split h h1 h' n y Hy) as [Hy1|Hy2]; [|exact Hy2].
                 destruct (Src1 n y Hy1) as [Hn | [Hc1 Hc2]]; lia.
              ** intros n y Hy Hi'.
                 destruct (Tv n y Hy) as [Ht | Hf]; [lia | exact Hf].
              ** intros n [Ha Hb]. exact Ha.
        -- exists L. split; [right; exact HL | exact Hw].
Qed.

Lemma walk_makeEdge_sound (cs : list Node) :
  Forall makeEdge_sound cs ->
  forall mids e last h,
  length mids + 1 = length cs ->
  last < length h -> e < length h ->
  Forall (fun n => n < length h) mids ->
  NoDup (last :: mids) -> ~ In e mids ->
  (forall n x, enew h (walk makeEdge cs (mids ++ [e]) last h) n x ->
     In (Nfa.t x) (mids ++ [e])
     \/ fresh h (walk makeEdge cs (mids ++ [e]) last h) (Nfa.t x))
  /\ (forall k w,
       lrun (enew h (walk makeEdge cs (mids ++ [e]) last h))
         (fun n => In n mids \/ length h <= n) k last w e ->
       cat_all (map lang cs) w).
Proof.
  induction 1 as [|c cs Hc _ IH]; intros mids e last h Hlen Hl He Hm Hnd Hne;
    simpl in Hlen; [lia|].
  destruct mids as [|next mids].
  - destruct cs as [|c' cs]; [|simpl in Hlen; lia]. simpl walk.
    destruct (Hc h last e Hl He) as [Tc Lc]. split.
    + intros n x Hx. destruct (Tc n x Hx) as [Ht | Hf]; [|right; exact Hf].
      left. left. symmetry. exact Ht.
    + intros k w Hr. simpl. exists w, EmptyString.
      split; [symmetry; apply str_app_nil_r | split; [|reflexivity]].
      apply (Lc k w).
      apply (lrun_weaken _ _ _ _ (fun n x Hx => Hx)
               (fun n (Hn : In n [] \/ length h <= n) =>
                  match Hn with or_introl F => match F with end
                              | or_intror G => G end) _ _ _ _ Hr).
  - simpl app. simpl walk.
    inversion Hm as [|x0 l0 Hnext Hmids]; subst x0 l0.
    inversion Hnd as [|x0 l0 Hlast Hnd']; subst x0 l0.
    inversion Hnd' as [|x0 l0 Hnextnd _]; subst x0 l0.
    assert (Hlastnext : last <> next) by (intros ->; apply Hlast; left; reflexivity).
    assert (Hlastmids : ~ In last mids) by (intros F; apply Hlast; right; exact F).
    assert (Henext : e <> next) by (intros ->; apply Hne; left; reflexivity).
    assert (Hemids : ~ In e mids) by (intros F; apply Hne; right; exact F).
    rewrite Forall_forall in Hmids.
    destruct (makeEdge_all_ok c h last next Hl Hnext) as [G1 _].
    pose proof (grows_length _ _ _ G1) as L1.
    destruct (Hc h last next Hl Hnext) as [Tc Lc].
    remember (makeEdge c last next h) as h1 eqn:Eh1.
    assert (Hmids1 : Forall (fun n => n < length h1) mids).
    { apply Forall_forall. intros n Hn. specialize (Hmids n Hn). lia. }
    destruct (walk_makeEdge_ok cs (all_makeEdge_ok cs) mids e next h1)
      as [G2 _]; try (simpl in Hlen; lia); [exact Hmids1|].
    pose proof (grows_length _ _ _ G2) as L2.
    destruct (IH mids e next h1) as [Tv Lv];
      try (simpl in Hlen; lia); auto.
    remember (walk makeEdge cs (mids ++ [e]) next h1) as h' eqn:Eh'.
    assert (Src1 : forall n x, enew h h1 n x -> n = last \/ fresh h h1 n).
    { intros n x Hx. destruct (enew_source _ _ _ _ _ G1 Hx) as [[<-|[]]|Hf]; auto. }
    assert (Src2 : forall n x, enew h1 h' n x ->
                   In n (next :: mids) \/ fresh h1 h' n).
    { intros n x Hx. apply (enew_source _ _ _ _ _ G2 Hx). }
    assert (Only1 : forall n y, n = last \/ fresh h h1 n ->
                    enew h h' n y -> enew h h1 n y).
    { intros n y Hn Hy.
      destruct (enew_split h h1 h' n y Hy) as [Hy1|Hy2]; [exact Hy1|].
      exfalso. destruct (Src2 n y Hy2) as [[E|Hin] | [Ha Hb]].
      - destruct Hn as [->|[Hc1 Hc2]]; [congruence | lia].
      - specialize (Hmids n Hin).
        destruct Hn as [->|[Hc1 Hc2]]; [contradiction | lia].
      - destruct Hn as [->|[Hc1 Hc2]]; lia. }
    assert (Only2 : forall n y, n = next \/ In n mids \/ fresh h1 h' n ->
                    enew h h' n y -> enew h1 h' n y).
    { intros n y Hn Hy.
      destruct (enew_split h h1 h' n y Hy) as [Hy1|Hy2]; [|exact Hy2].
      exfalso. destruct (Src1 n y Hy1) as [E | [Ha Hb]].
      - destruct Hn as [->|[Hin|[Hc1 Hc2]]];
          [congruence | subst; contradiction | lia].
      - destruct Hn as [->|[Hin|[Hc1 Hc2]]];
          [lia | specialize (Hmids n Hin); lia | lia]. }
    split.
    + intros n x Hx. destruct (enew_split h h1 h' n x Hx) as [H1|H1].
      * destruct (Tc n x H1) as [Ht | [Ha Hb]].
        -- left. left. symmetry. exact Ht.
        -- right. unfold fresh. lia.
      * destruct (Tv n x H1) as [Ht | [Ha Hb]].
        -- left. right. exact Ht.
        -- right. unfold fresh. lia.
    + intros k w Hr.
      destruct (lrun_inv _ _ _ _ _ _ Hr) as [x [Hx [Hu Hcase]]].
      pose proof (Only1 last x (or_introl eq_refl) Hx) as Hx1.
      destruct Hcase as [[_ [_ Hz]] | [k' [w' [-> [-> [Hi Hrest]]]]]].
      * exfalso. destruct (Tc last x Hx1) as [Ht | [Ha Hb]]; [congruence | lia].
      * destruct (lrun_exit_step (enew h h') (enew h h1)
                    (fun n => In n (next :: mids) \/ length h <= n)
                    (fun n => length h <= n) (fresh h h1) next)
          with (a := last) (y := x) (k := k') (w := w') (z := e)
          as [k1 [w1 [R1 Hsplit]]]; auto.
        -- intros n [Ha Hb]. exact Ha.
        -- unfold fresh. lia.
        -- pose proof (Lc k1 w1 R1) as Hw1.
           destruct Hsplit as [[_ [_ Hz]] | [k2 [w2 [Hk [Hk1 [Hw R2]]]]]];
             [congruence|].
           simpl. exists w1, w2. split; [exact Hw | split; [exact Hw1|]].
           apply (Lv k2 w2).
           assert (C1 : forall n y,
                     n = next \/ (In n mids \/ fresh h1 h' n) ->
                     enew h h' n y -> enew h1 h' n y).
           { intros n y Hn Hy. apply (Only2 n y); [tauto | exact Hy]. }
           assert (C2 : forall n y, enew h1 h' n y ->
                     In (Nfa.t y) (next :: mids) \/ length h <= Nfa.t y ->
                     In (Nfa.t y) mids \/ fresh h1 h' (Nfa.t y)).
           { intros n y Hy Hi'. destruct (Tv n y Hy) as [Ht | Hf];
               [|right; exact Hf].
             apply in_app_or in Ht. destruct Ht as [Ht | [Ht|[]]];
               [left; exact Ht|].
             exfalso. rewrite <- Ht in Hi'.
             destruct Hi' as [[E|Hin]|Hge]; [congruence | contradiction | lia]. }
           assert (C3 : forall n, In n mids \/ fresh h1 h' n ->
                     In n mids \/ length h1 <= n).
           { intros n [Hin | [Ha Hb]]; [left; exact Hin | right; exact Ha]. }
           apply (lrun_confine (enew h h') (enew h1 h')
                    (fun n => In n (next :: mids) \/ length h <= n)
                    (fun n => In n mids \/ length h1 <= n)
                    (fun n => n = next) (fun n => In n mids \/ fresh h1 h' n)
                    C1 C2 C3 k2 next w2 e R2).
           left. reflexivity.
Qed.

Lemma makeEdge_Seq (v : list Node) (s e : Nfa.Node) (h : Nfa.Heap) :
  makeEdge (Seq v) s e h
  = walk makeEdge v (seq (length h) (length v - 1) ++ [e]) s
      (h ++ repeat [] (length v - 1)).
Proof.
  change (makeEdge (Seq v) s e h)
    with (let (fresh, h1) := Nfa.newNodes (length v - 1) h in
          walk makeEdge v (fresh ++ [e]) s h1).
  rewrite newNodes_spec. reflexivity.
Qed.

Lemma makeEdge_sound_Seq (v : list Node) :
  Forall makeEdge_sound v -> makeEdge_sound (Seq v).
Proof.
  intros IH h s e Hs He. rewrite makeEdge_Seq.
  destruct v as [|c v].
  - simpl. rewrite app_nil_r. split.
    + intros n x [H1 H2]. contradiction.
    + intros k w Hr.
      destruct (lrun_inv _ _ _ _ _ _ Hr) as [x [[H1 H2] _]]. contradiction.
  - replace (length (c :: v) - 1) with (length v) by (simpl; lia).
    assert (Hfresh : forall m, In m (seq (length h) (length v)) <->
                     length h <= m < length h + length v)
      by (intros m; rewrite in_seq; lia).
    assert (L1 : length (h ++ repeat [] (length v)) = length h + length v)
      by (rewrite length_app, repeat_length; reflexivity).
    destruct (walk_makeEdge_sound (c :: v) IH (seq (length h) (length v)) e s
                (h ++ repeat [] (length v))) as [Tw Lw]; try lia.
    { rewrite length_seq. simpl. lia. }
    { apply Forall_forall. intros m Hin. apply Hfresh in Hin. lia. }
    { constructor; [|apply seq_NoDup]. intros Hin. apply Hfresh in Hin. lia. }
    { intros Hin. apply Hfresh in Hin. lia. }
    destruct (walk_makeEdge_ok (c :: v) (all_makeEdge_ok (c :: v))
                (seq (length h) (length v)) e s (h ++ repeat [] (length v)))
      as [G _]; try lia.
    { rewrite length_seq. simpl. lia. }
    { apply Forall_forall. intros m Hin. apply Hfresh in Hin. lia. }
    pose proof (grows_length _ _ _ G) as L2.
    change (walk makeEdge (c :: v) _ s _)
      with (walk makeEdge (c :: v) (seq (length h) (length v) ++ [e]) s
              (h ++ repeat [] (length v))).
    remember (walk makeEdge (c :: v) (seq (length h) (length v) ++ [e]) s
                (h ++ repeat [] (length v))) as h' eqn:Eh'.
    split.
    + intros n x Hx. apply (enew_alloc_l h h' (length v)) in Hx.
      destruct (Tw n x Hx) as [Ht | [Ha Hb]].
      * apply in_app_or in Ht. destruct Ht as [Ht | [Ht|[]]].
        -- right. apply Hfresh in Ht. unfold fresh. lia.
        -- left. symmetry. exact Ht.
      * right. unfold fresh. lia.
    + intros k w Hr. apply (Lw k w).
      apply (lrun_weaken (enew h h') _ (fun n => length h <= n) _); [| | exact Hr].
      * intros n x Hx. apply (enew_alloc_l h h' (length v)), Hx.
      * intros n Hn.
        destruct (Nat.lt_ge_cases n (length h + length v)) as [Hlt|Hge].
        -- left. apply Hfresh. lia.
        -- right. lia.
Qed.

Lemma makeEdge_sound_Alt (v : list Node) :
  Forall makeEdge_sound v -> makeEdge_sound (Alt v).
Proof.
  intros IH h s e Hs He. simpl makeEdge.
  apply (fold_makeEdge_sound v IH h s e Hs He).
Qed.

Lemma makeEdge_all_sound (ast : Node) : makeEdge_sound ast.
Proof.
  induction ast as [a | v IH | v IH | c IH] using Node_nested_ind.
  - apply makeEdge_sound_Atom.
  - apply makeEdge_sound_Seq, IH.
  - apply makeEdge_sound_Alt, IH.
  - apply makeEdge_sound_Star, IH.
Qed.

(** ** Completeness of [makeEdge]: every word labels a chain *)









(** ** [match] on the automaton of a tree decides its language *)

Lemma ds_two_empty (n : Nfa.Node) : Nfa.ds [[]; []] n = [].
Proof. destruct n as [|[|[|n]]]; reflexivity. Qed.









(** Every edge of the automaton of [makeNfa] leaves an allocated node
    other than the end node and enters an allocated node other than the
    start node. *)
Theorem makeNfa_edges (ast : Node) (n : Nfa.Node) (x : Nfa.Edge) :
  In x (Nfa.ds (snd (makeNfa ast)) n) ->
  n < length (snd (makeNfa ast)) /\ n <> endNode
  /\ Nfa.t x < length (snd (makeNfa ast)) /\ Nfa.t x <> fst (makeNfa ast).
Proof.
  unfold makeNfa, endNode. simpl fst. simpl snd.
  destruct (makeEdge_all_ok ast [[]; []] 0 1) as [G _]; simpl; try lia.
  destruct (makeEdge_all_sound ast [[]; []] 0 1) as [T _]; simpl; try lia.
  pose proof (grows_length _ _ _ G) as L. simpl in L.
  intros Hx.
  assert (Hnew : enew [[]; []] (makeEdge ast 0 1 [[]; []]) n x).
  { split; [exact Hx|]. rewrite ds_two_empty. intros []. }
  destruct (T n x Hnew) as [Ht | [Hc Hd]];
    destruct (enew_source _ _ _ _ _ G Hnew) as [[E|[]] | [Ha Hb]];
    simpl in *; lia.
Qed.

Lemma makeNfa_edges_witness :
  2 < length (snd (makeNfa (Star (Atom "a")))) /\ 2 <> endNode
  /\ Nfa.t (Nfa.mkEdge "" 1) < length (snd (makeNfa (Star (Atom "a"))))
  /\ Nfa.t (Nfa.mkEdge "" 1) <> fst (makeNfa (Star (Atom "a"))).
Proof.
  apply (makeNfa_edges (Star (Atom "a")) 2 (Nfa.mkEdge "" 1)).
  simpl. right. left. reflexivity.
Defined.

(** ** Patterns without special character match themselves *)




(** ** [simplify] and the language *)

Lemma star_mono (L1 L2 : string -> Prop) :
  (forall w, L1 w -> L2 w) -> forall w, star L1 w -> star L2 w.
Proof.
  intros H. induction 1 as [|w1 w2 H1 _ IH]; [apply star_nil|].
  apply star_app; auto.
Qed.

Lemma cat_all_one (L : string -> Prop) (w : string) : cat_all [L] w <-> L w.
Proof.
  simpl. split.
  - intros [w1 [w2 [-> [H ->]]]]. rewrite str_app_nil_r. exact H.
  - intros H. exists w, EmptyString.
    split; [symmetry; apply str_app_nil_r | auto].
Qed.

Lemma cat_all_simplify (v : list Node) :
  Forall (fun c => forall w, lang (simplify c) w <-> lang c w) v ->
  forall w, cat_all (map lang (map simplify v)) w <-> cat_all (map lang v) w.
Proof.
  induction 1 as [|c v Hc _ IH]; intros w; simpl; [tauto|].
  split; intros [w1 [w2 [-> [H1 H2]]]]; exists w1, w2;
    (split; [reflexivity | split; [apply Hc, H1 | apply IH, H2]]).
Qed.

Lemma any_of_simplify (v : list Node) :
  Forall (fun c => forall w, lang (simplify c) w <-> lang c w) v ->
  forall w, any_of (map lang (map simplify v)) w <-> any_of (map lang v) w.
Proof.
  intros H w. rewrite Forall_forall in H. unfold any_of. split.
  - intros [L [HL Hw]]. apply in_map_iff in HL. destruct HL as [r [<- Hr]].
    apply in_map_iff in Hr. destruct Hr as [c [<- Hc]].
    exists (lang c). split; [apply in_map, Hc | apply (H c Hc), Hw].
  - intros [L [HL Hw]]. apply in_map_iff in HL. destruct HL as [c [<- Hc]].
    exists (lang (simplify c)).
    split; [apply in_map, in_map, Hc | apply (H c Hc), Hw].
Qed.

Lemma star_safe_Forall (v : list Node) :
  Forall (fun c => star_safe c = true ->
                   forall w, lang (simplify c) w <-> lang c w) v ->
  forallb star_safe v = true ->
  Forall (fun c => forall w, lang (simplify c) w <-> lang c w) v.
Proof.
  induction 1 as [|c v Hc _ IH]; intros Hs; constructor;
    simpl in Hs; apply andb_prop in Hs; destruct Hs; auto.
Qed.

(** On a tree in which no star is applied to a tree that simplifies to
    a star, [simplify] keeps the language. *)
Theorem simplify_lang (t : Node) :
  star_safe t = true -> forall w, lang (simplify t) w <-> lang t w.
Proof.
  induction t as [a | v IH | v IH | c IH] using Node_nested_ind; intros Hs w.
  - tauto.
  - simpl in Hs. pose proof (cat_all_simplify v (star_safe_Forall v IH Hs) w) as H.
    rewrite simplify_Seq_children. simpl lang at 2. rewrite <- H.
    destruct (map simplify v) as [|r1 [|r2 newV]].
    + simpl. split; [tauto | intros ->; split; [reflexivity | lia]].
    + symmetry. apply (cat_all_one (lang r1)).
    + reflexivity.
  - simpl in Hs. rewrite simplify_Alt.
    apply (any_of_simplify v (star_safe_Forall v IH Hs) w).
  - simpl in Hs. apply andb_prop in Hs. destruct Hs as [Hns Hc].
    rewrite simplify_Star. specialize (IH Hc).
    assert (E : lang (Star (simplify c)) w <-> lang (Star c) w).
    { simpl. split; apply star_mono; intros w'; apply IH. }
    destruct (simplify c); try exact E. discriminate.
Qed.

Lemma simplify_lang_witness :
  lang (simplify (Seq [Seq [Atom "a"]; Star (Seq [Atom "b"]); Seq []])) "abb"
  <-> lang (Seq [Seq [Atom "a"]; Star (Seq [Atom "b"]); Seq []]) "abb".
Proof.
  apply (simplify_lang (Seq [Seq [Atom "a"]; Star (Seq [Atom "b"]); Seq []])).
  reflexivity.
Defined.

(** ** [range] *)

Lemma range_loop_stop (fuel : nat) (i end_ : Z) (res : list Z) :
  (end_ <= i)%Z -> range_loop (S fuel) i end_ res = Some res.
Proof.
  intros H. simpl. destruct (Z.ltb_spec i end_); [lia | reflexivity].
Qed.

Lemma range_loop_count (k : nat) : forall i res,
  range_loop (S k) i (i + Z.of_nat k) res
  = Some (res ++ map (fun j => (i + Z.of_nat j)%Z) (seq 0 k)).
Proof.
  induction k as [|k IH]; intros i res.
  - rewrite range_loop_stop by lia. simpl. rewrite app_nil_r. reflexivity.
  - change (range_loop (S (S k)) i (i + Z.of_nat (S k)) res)
      with (if (i <? i + Z.of_nat (S k))%Z
            then range_loop (S k) (i + 1)%Z (i + Z.of_nat (S k))%Z (res ++ [i])
            else Some res).
    destruct (Z.ltb_spec i (i + Z.of_nat (S k))); [|lia].
    replace (i + Z.of_nat (S k))%Z with (i + 1 + Z.of_nat k)%Z by lia.
    rewrite IH, <- app_assoc. f_equal. f_equal. simpl.
    rewrite Z.add_0_r. f_equal. rewrite <- seq_shift, map_map.
    apply map_ext. intros j. lia.
Qed.

Lemma seq_from (a k : nat) : map (fun j => a + j) (seq 0 k) = seq a k.
Proof.
  revert a. induction k as [|k IH]; intros a; simpl; [reflexivity|].
  rewrite Nat.add_0_r. f_equal. rewrite <- seq_shift, map_map.
  rewrite <- (IH (S a)). apply map_ext. intros j. lia.
Qed.

(** [range(end)] is the array [0, 1, ..., end - 1], empty when [end] is
    zero or negative; so [range(ast.v.length - 1).map(_ => new
    Nfa.Node())] allocates one node per element, none for an empty
    sequence, at consecutive places of the arena. *)
Theorem range_counts (end_ : Z) :
  range end_ = Some (map Z.of_nat (seq 0 (Z.to_nat end_)))
  /\ forall (v : list Node) (h : Nfa.Heap),
       range (Z.of_nat (length v) - 1)
       = Some (map Z.of_nat (seq 0 (length v - 1)))
       /\ fst (Nfa.newNodes (length v - 1) h)
          = map (fun i => length h + Z.to_nat i)
              (map Z.of_nat (seq 0 (length v - 1))).
Proof.
  assert (R : forall e, range e = Some (map Z.of_nat (seq 0 (Z.to_nat e)))).
  { intros e. unfold range. destruct (Z.le_gt_cases e 0) as [Hle|Hgt].
    - rewrite range_loop_stop by lia.
      replace (Z.to_nat e) with 0 by lia. reflexivity.
    - replace e with (0 + Z.of_nat (Z.to_nat e))%Z at 2 by lia.
      rewrite range_loop_count. simpl. reflexivity. }
  split; [apply R|]. intros v h. split.
  - rewrite R. replace (Z.to_nat (Z.of_nat (length v) - 1)) with (length v - 1)
      by lia. reflexivity.
  - rewrite newNodes_spec. simpl fst. rewrite map_map.
    rewrite <- (seq_from (length h) (length v - 1)).
    apply map_ext. intros j. lia.
Qed.

(** ** The self-test [test] *)






